(** * The index generator: term extraction, accumulation and rendering

    A shallow embedding of [IndexerBackend] (the two source variants share the
    same core, the 2.0 one adds a direct PDF entry point).

    Modelling conventions.
    - A Python [str] is a Rocq [string] that holds its UTF-8 encoding, which
      is also what the output file receives.  An ASCII character is one byte
      below 128, a character outside ASCII is two to four bytes above 127, and
      the order of the strings is the order of Python's.  [\s], [\b] and
      [str.lower] are those of Python on ASCII text: a byte above 127 is
      treated as neither a space, a word character nor a cased letter.  The
      uppercase form of the first character of a term, which decides the
      bucket of the term, is given outside ASCII as well.
    - [re.findall] and [re.sub] are given by a backtracking matcher that
      returns the possible ends of a match in the priority order of Python's
      engine (greedy repetition first); the match chosen is the first one.
    - [defaultdict(set)] is a [gmap string (gset Z)]; a Python [set] of
      strings is a [gset string].
    - The output file is a buffered file object on a device that may fail:
      what is written goes to the buffer, and reaches the device when the
      buffer is full and when the file is closed.
    - The status and progress callbacks only notify the user interface and are
      left out. *)

From Stdlib Require Import Ascii String ZArith Lia DecimalString.
From stdpp Require Import base tactics option list sorting gmap strings.

#[local] Set Warnings "-clear-no-such-hyp".

(** ** Characters *)

Definition in_range (lo hi c : ascii) : bool :=
  (N_of_ascii lo <=? N_of_ascii c)%N && (N_of_ascii c <=? N_of_ascii hi)%N.

Definition is_upper (c : ascii) : bool := in_range "A"%char "Z"%char c.
Definition is_lower (c : ascii) : bool := in_range "a"%char "z"%char c.
Definition is_alpha (c : ascii) : bool := is_upper c || is_lower c.
Definition is_digit (c : ascii) : bool := in_range "0"%char "9"%char c.

(** The bytes of the ASCII characters. *)
Definition is_ascii (c : ascii) : bool := (N_of_ascii c <? 128)%N.

(** The number of bytes of the character whose encoding begins with the byte
    [c]. *)
Definition char_width (c : ascii) : nat :=
  if (N_of_ascii c <? 192)%N then 1
  else if (N_of_ascii c <? 224)%N then 2
  else if (N_of_ascii c <? 240)%N then 3
  else 4.

(** [\w]: letters, digits and the underscore. *)
Definition is_word (c : ascii) : bool :=
  is_alpha c || is_digit c || Ascii.eqb c "_"%char.

(** [\s]: tab, line feed, vertical tab, form feed, carriage return, the four
    separators 28..31 and the space. *)
Definition is_space (c : ascii) : bool :=
  in_range "009"%char "013"%char c || in_range "028"%char "031"%char c
  || Ascii.eqb c " "%char.

Definition lower_char (c : ascii) : ascii :=
  if is_upper c then ascii_of_N (N_of_ascii c + 32) else c.

Definition upper_char (c : ascii) : ascii :=
  if is_lower c then ascii_of_N (N_of_ascii c - 32) else c.

Fixpoint str_map (f : ascii -> ascii) (s : string) : string :=
  match s with
  | EmptyString => EmptyString
  | String c s' => String (f c) (str_map f s')
  end.

(** [s.lower()] and [s.upper()] on ASCII text *)
Definition lower (s : string) : string := str_map lower_char s.
Definition upper (s : string) : string := str_map upper_char s.

(** ** Regular expressions *)

Inductive regex : Type :=
| Class (p : ascii -> bool)   (* one character of a class *)
| Boundary                    (* \b *)
| Empty
| Cat (r1 r2 : regex)
| Or (r1 r2 : regex)          (* r1|r2, r1 tried first *)
| Many (r : regex).           (* r*, greedy *)

Declare Scope regex_scope.
Delimit Scope regex_scope with re.
Bind Scope regex_scope with regex.
Infix "⋅" := Cat (at level 40, left associativity) : regex_scope.
Infix "∣" := Or (at level 50, left associativity) : regex_scope.

(** r+ *)
Definition Plus (r : regex) : regex := Cat r (Many r).
Definition Chr (c : ascii) : regex := Class (Ascii.eqb c).
Definition Space : regex := Class is_space.

Fixpoint Lit (s : string) : regex :=
  match s with
  | EmptyString => Empty
  | String c s' => Cat (Chr c) (Lit s')
  end.

(** A position in the subject: the character before it, if any, and the rest
    of the subject. *)
Definition cfg : Type := option ascii * string.

Definition at_boundary (prev : option ascii) (rest : string) : bool :=
  xorb (match prev with Some c => is_word c | None => false end)
       (match rest with String c _ => is_word c | EmptyString => false end).

Definition shorter (c c' : cfg) : bool :=
  String.length (snd c') <? String.length (snd c).

(** Greedy iteration: first one more round of the body and then the rest of
    the iteration, last no round at all.  A round that consumes nothing is not
    repeated. *)
Fixpoint star_loop (step : cfg -> list cfg) (fuel : nat) (c : cfg) : list cfg :=
  match fuel with
  | O => [c]
  | S fuel' =>
      flat_map (star_loop step fuel') (List.filter (shorter c) (step c)) ++ [c]
  end.

(** All ways to match [r] at [c], as the positions reached, in the order in
    which a backtracking matcher tries them. *)
Fixpoint rmatch (r : regex) (c : cfg) : list cfg :=
  match r with
  | Class p =>
      match snd c with
      | String a s => if p a then [(Some a, s)] else []
      | EmptyString => []
      end
  | Boundary => if at_boundary (fst c) (snd c) then [c] else []
  | Empty => [c]
  | Cat r1 r2 => flat_map (rmatch r2) (rmatch r1 c)
  | Or r1 r2 => rmatch r1 c ++ rmatch r2 c
  | Many r' => star_loop (rmatch r') (String.length (snd c)) c
  end.

(** The length of the match of [r] at a position, if there is one. *)
Definition match_at (r : regex) (prev : option ascii) (s : string) : option nat :=
  match rmatch r (prev, s) with
  | c' :: _ => Some (String.length s - String.length (snd c'))
  | [] => None
  end.

(** [re.findall(r, s)] for a pattern without groups: the matches found scanning
    from the left, each search starting where the previous match ended.  [skip]
    counts the characters still covered by the previous match. *)
Fixpoint findall_from (r : regex) (prev : option ascii) (s : string) (skip : nat)
  : list string :=
  match skip with
  | S k =>
      match s with
      | String a s' => findall_from r (Some a) s' k
      | EmptyString => []
      end
  | O =>
      match match_at r prev s with
      | Some n =>
          String.substring 0 n s ::
            match s with
            | String a s' => findall_from r (Some a) s' (n - 1)
            | EmptyString => []
            end
      | None =>
          match s with
          | String a s' => findall_from r (Some a) s' 0
          | EmptyString => []
          end
      end
  end.

Definition findall (r : regex) (s : string) : list string :=
  findall_from r None s 0.

(** [re.sub(r, repl, s)] for a replacement without group references. *)
Fixpoint sub_from (r : regex) (repl : string) (prev : option ascii) (s : string)
  (skip : nat) : string :=
  match skip with
  | S k =>
      match s with
      | String a s' => sub_from r repl (Some a) s' k
      | EmptyString => EmptyString
      end
  | O =>
      match match_at r prev s with
      | Some n =>
          repl +:+
            match s with
            | String a s' =>
                let out := sub_from r repl (Some a) s' (n - 1) in
                match n with O => String a out | S _ => out end
            | EmptyString => EmptyString
            end
      | None =>
          match s with
          | String a s' => String a (sub_from r repl (Some a) s' 0)
          | EmptyString => EmptyString
          end
      end
  end.

Definition sub (r : regex) (repl s : string) : string :=
  sub_from r repl None s 0.

(** ** Global constants *)

Definition STOP_WORDS : gset string := list_to_set [
  "a"; "about"; "above"; "after"; "again"; "against"; "all"; "am"; "an"; "and"; "any"; "are"; "aren't"; "as"; "at";
  "be"; "because"; "been"; "before"; "being"; "below"; "between"; "both"; "but"; "by"; "can't"; "cannot"; "could";
  "couldn't"; "did"; "didn't"; "do"; "does"; "doesn't"; "doing"; "don't"; "down"; "during"; "each"; "few"; "for";
  "from"; "further"; "had"; "hadn't"; "has"; "hasn't"; "have"; "haven't"; "having"; "he"; "he'd"; "he'll"; "he's";
  "her"; "here"; "here's"; "hers"; "herself"; "him"; "himself"; "his"; "how"; "how's"; "i"; "i'd"; "i'll"; "i'm";
  "i've"; "if"; "in"; "into"; "is"; "isn't"; "it"; "it's"; "its"; "itself"; "let's"; "me"; "more"; "most";
  "mustn't"; "my"; "myself"; "no"; "nor"; "not"; "of"; "off"; "on"; "once"; "only"; "or"; "other"; "ought"; "our";
  "ours"; "ourselves"; "out"; "over"; "own"; "same"; "shan't"; "she"; "she'd"; "she'll"; "she's"; "should";
  "shouldn't"; "so"; "some"; "such"; "than"; "that"; "that's"; "the"; "their"; "theirs"; "them"; "themselves";
  "then"; "there"; "there's"; "these"; "they"; "they'd"; "they'll"; "they're"; "they've"; "this"; "those";
  "through"; "to"; "too"; "under"; "until"; "up"; "very"; "was"; "wasn't"; "we"; "we'd"; "we'll"; "we're"; "we've";
  "were"; "weren't"; "what"; "what's"; "when"; "when's"; "where"; "where's"; "which"; "while"; "who"; "who's";
  "whom"; "why"; "why's"; "with"; "won't"; "would"; "wouldn't"; "you"; "you'd"; "you'll"; "you're"; "you've";
  "your"; "yours"; "yourself"; "yourselves"
].

#[global] Typeclasses Opaque STOP_WORDS.

(** [[a-zA-Z-./]] *)
Definition word_char (c : ascii) : bool :=
  is_alpha c || Ascii.eqb c "-"%char || Ascii.eqb c "."%char || Ascii.eqb c "/"%char.

(** [\b[a-zA-Z-./]+(?:\s*/\s*[a-zA-Z-./]+)*\b] *)
Definition WORD_REGEX : regex :=
  (Boundary ⋅ Plus (Class word_char)
   ⋅ Many (Many Space ⋅ Chr "/"%char ⋅ Many Space ⋅ Plus (Class word_char))
   ⋅ Boundary)%re.

(** [\s*/\s*] *)
Definition SLASH_REGEX : regex := (Many Space ⋅ Chr "/"%char ⋅ Many Space)%re.

(** A capitalized word: one of A-Z, then any number of letters. *)
Definition CAPITALIZED : regex := (Class is_upper ⋅ Many (Class is_alpha))%re.

(** The pattern of the phrases mode: between two word boundaries, a
    capitalized word, then any number of groups "spaces, one of
    of|the|and|for|in|to|on, spaces, capitalized word", then any number of
    groups "spaces, capitalized word". *)
Definition PHRASE_REGEX : regex :=
  (Boundary ⋅ CAPITALIZED
   ⋅ Many (Plus Space
           ⋅ (Lit "of" ∣ Lit "the" ∣ Lit "and" ∣ Lit "for" ∣ Lit "in" ∣ Lit "to" ∣ Lit "on")
           ⋅ Plus Space ⋅ CAPITALIZED)
   ⋅ Many (Plus Space ⋅ CAPITALIZED)
   ⋅ Boundary)%re.

(** ** IndexerBackend: extraction *)

Definition _normalize_term (term : string) : string :=
  lower (sub SLASH_REGEX "/" term).

(** The value of [list(set(l))]: the distinct elements of [l], in an order the
    language leaves open. *)
Definition list_of_set (l : list string) : list string :=
  elements (list_to_set l : gset string).

Definition _extract_terms (text mode : string) : list string :=
  let raw_words := findall WORD_REGEX text in
  let normalized_words := _normalize_term <$> raw_words in
  if String.eqb mode "words" then
    filter (λ word, word ∉ STOP_WORDS) normalized_words
  else if String.eqb mode "words_no_filter" then
    normalized_words
  else if String.eqb mode "phrases" then
    let phrases := findall PHRASE_REGEX text in
    let normalized_phrases := lower <$> phrases in
    let filtered_words := filter (λ word, word ∉ STOP_WORDS) normalized_words in
    list_of_set (normalized_phrases ++ filtered_words)
  else [].

(** ** Errors and output *)

Inductive exn : Type := ImportError | IndexError | OSError.

Inductive result (A : Type) : Type :=
| Ok (a : A)
| Raise (e : exn).
Arguments Ok {A} a.
Arguments Raise {A} e.

(** The output file and the device behind it: [file] lists the strings that
    have reached the file at [output_path] since it was created or emptied, in
    order, so that its content is their concatenation ([None] when the file
    does not exist); [writable] tells whether the file can be opened for
    writing, and [quota] how many more characters the device accepts before
    it fails ([None]: it never fails). *)
Record world : Type := World {
  file : option (list string);
  writable : bool;
  quota : option nat
}.

Definition flatten (l : list string) : string := foldr String.append EmptyString l.


(** The string without its first [n] characters. *)
Fixpoint str_drop (n : nat) (s : string) : string :=
  match n, s with
  | S n', String _ s' => str_drop n' s'
  | _, _ => s
  end.

(** What a device that accepts [n] more characters takes of the strings handed
    to it, and what it leaves: the strings are taken one after the other, and
    the first that does not fit is cut. *)
Fixpoint accept (n : nat) (pieces : list string) : list string * list string :=
  match pieces with
  | [] => ([], [])
  | s :: rest =>
      if String.length s <=? n then
        let '(taken, kept) := accept (n - String.length s) rest in
        (s :: taken, kept)
      else
        (match n with O => [] | S _ => [String.substring 0 n s] end,
         str_drop n s :: rest)
  end.

(** When a file object passes the content of its buffer on to the device is
    settled by the platform, which chooses the size of the buffer when the
    file is opened: [buffer_full] tells it from the strings the buffer
    holds. *)
Class Buffering : Type := buffer_full : list string -> bool.

(** A buffer of [io.DEFAULT_BUFFER_SIZE] characters. *)
#[global] Instance DEFAULT_BUFFER_SIZE : Buffering :=
  λ pending, (8192 <=? N.of_nat (String.length (flatten pending)))%N.

(** The file object [f] of the [with] block: the device behind it, the strings
    written to it that its buffer still holds, and when the buffer counts as
    full. *)
Record textfile : Type := TextFile {
  device : world;
  pending : list string;
  full : list string -> bool
}.

(** Programs on a state [S] that return a value or raise an exception. *)
Definition prog (S A : Type) : Type := S -> result A * S.

Abbreviation IO := (prog world).
Abbreviation FileIO := (prog textfile).

Definition ret {S A} (a : A) : prog S A := λ s, (Ok a, s).

Definition bind {S A B} (m : prog S A) (k : A -> prog S B) : prog S B :=
  λ s, match m s with
       | (Ok a, s') => k a s'
       | (Raise e, s') => (Raise e, s')
       end.

Definition lift {S A} (r : result A) : prog S A := λ s, (r, s).

#[global] Instance prog_ret S : MRet (prog S) := @ret S.
#[global] Instance prog_bind S : MBind (prog S) := λ A B k m, bind m k.

(** The buffer is passed on to the device, which takes what its quota allows;
    if something is left, the error of the device is raised. *)
Definition flush : FileIO unit :=
  λ f,
    let w := device f in
    let '(taken, kept) :=
      match quota w with
      | Some n => accept n (pending f)
      | None => (pending f, [])
      end in
    let w' := World (Some (default [] (file w) ++ taken)) (writable w)
                    ((λ n, n - String.length (flatten taken)) <$> quota w) in
    (match kept with [] => Ok tt | _ => Raise OSError end,
     TextFile w' kept (full f)).

(** [f.write(s)]: the string goes to the buffer, which is passed on when it is
    full. *)
Definition write (s : string) : FileIO unit :=
  λ f,
    let f' := TextFile (device f) (pending f ++ [s]) (full f) in
    if full f (pending f') then flush f' else (Ok tt, f').

(** [with open(output_path, 'w', encoding='utf-8') as f: body]: the file is
    created or emptied, the body runs on the file object, and on the way out,
    also when the body has raised an exception, the file is closed, which
    passes on what the buffer still holds. *)
Definition with_open `{Buffering} (body : FileIO unit) : IO unit :=
  λ w,
    if writable w then
      let '(r, f) :=
        body (TextFile (World (Some []) (writable w) (quota w)) [] buffer_full) in
      match flush f with
      | (Ok _, f') => (r, device f')
      | (Raise e, f') => (Raise e, device f')
      end
    else (Raise OSError, w).

Fixpoint for_each {S A} (l : list A) (body : A -> prog S unit) : prog S unit :=
  match l with
  | [] => ret tt
  | x :: l' => body x ;; for_each l' body
  end.

(** ** IndexerBackend: accumulation *)

(** [enumerate(l)] *)
Definition enumerate {A} (l : list A) : list (nat * A) := imap pair l.

(** The body of the page loop: [for term in terms: term_map[term].add(page)]. *)
Definition record_page (term_map : gmap string (gset Z)) (page : Z)
  (terms : list string) : gmap string (gset Z) :=
  foldl (λ tm term, <[term := default ∅ (tm !! term) ∪ {[page]}]> tm)
        term_map terms.

Definition record_all (term_map : gmap string (gset Z))
  (pages : list (Z * list string)) : gmap string (gset Z) :=
  foldl (λ tm '(page, terms), record_page tm page terms) term_map pages.

(** [pdf_doc] lists the texts of the pages of the opened document. *)
Definition extract_from_pdf (FILE_PROCESSING_AVAILABLE : bool)
  (pdf_doc : list string) (mode : string) : result (gmap string (gset Z)) :=
  if negb FILE_PROCESSING_AVAILABLE then Raise ImportError
  else
    Ok (foldl (λ term_map '(i, text),
                 let terms := _extract_terms text mode in
                 record_page term_map (Z.of_nat i + 1) terms)
              ∅ (enumerate pdf_doc)).

(** ** IndexerBackend: rendering *)

Definition nl : string := String "010"%char EmptyString.
Definition dq : string := String "034"%char EmptyString.
Definition bs : string := String "092"%char EmptyString.

(** [sorted(l)] on strings and on integers *)
Definition sorted (l : list string) : list string := merge_sort String.le l.
Definition sorted_int (l : list Z) : list Z := merge_sort Z.le l.

(** [str(n)] *)
Definition str (n : Z) : string := NilZero.string_of_int (Z.to_int n).

(** [sep.join(l)] *)
Fixpoint join (sep : string) (l : list string) : string :=
  match l with
  | [] => EmptyString
  | [x] => x
  | x :: l' => x +:+ sep +:+ join sep l'
  end.

(** [s.replace(old, new)] for a one-character [old] *)
Fixpoint replace (old : ascii) (new : string) (s : string) : string :=
  match s with
  | EmptyString => EmptyString
  | String c s' =>
      if Ascii.eqb c old then new +:+ replace old new s'
      else String c (replace old new s')
  end.

(** [grouped[key].append(term)] on a [defaultdict(list)] *)
Definition append_to (grouped : gmap string (list string)) (key term : string)
  : gmap string (list string) :=
  <[key := default [] (grouped !! key) ++ [term]]> grouped.

(** [s[0]] for a string that is not empty: the bytes of its first
    character. *)
Definition first_char (s : string) : string :=
  match s with
  | EmptyString => EmptyString
  | String c _ => String.substring 0 (char_width c) s
  end.

(** The characters outside ASCII whose uppercase form begins with an ASCII
    character, each with that form: sharp s, dotless i, long s, five letters
    whose mark becomes a character of its own, the letter a with a half ring
    and the seven ligatures of f, s and t.  For all of them the form begins
    with a capital letter. *)
Definition SPECIAL_UPPER : list (string * string) :=
  [ ("ß", "SS"); ("ı", "I"); ("ſ", "S"); ("ǰ", "J̌"); ("ẖ", "H̱");
    ("ẗ", "T̈"); ("ẘ", "W̊"); ("ẙ", "Y̊"); ("ẚ", "Aʾ"); ("ﬀ", "FF");
    ("ﬁ", "FI"); ("ﬂ", "FL"); ("ﬃ", "FFI"); ("ﬄ", "FFL"); ("ﬅ", "ST");
    ("ﬆ", "ST") ].

(** [c.upper()] for one character: the capital of an ASCII letter, the form
    of the table, and else the character as it is.  The last case stands for
    the uppercase form of a character outside ASCII and outside the table:
    whatever that form is it begins, like the character, with a byte above
    127, and the program looks at no more of it, as the form then fails the
    test for a letter. *)
Definition char_upper (c : string) : string :=
  match find (λ cu, String.eqb (fst cu) c) SPECIAL_UPPER with
  | Some cu => snd cu
  | None => upper c
  end.

Definition group_term (grouped : gmap string (list string)) (term : string)
  : result (gmap string (list string)) :=
  match term with
  | EmptyString => Raise IndexError
  | String _ _ =>
      let first_letter := char_upper (first_char term) in
      if String.leb "A" first_letter && String.leb first_letter "Z"
      then Ok (append_to grouped first_letter term)
      else Ok (append_to grouped "#" term)
  end.

Fixpoint group_loop (grouped : gmap string (list string)) (terms : list string)
  : result (gmap string (list string)) :=
  match terms with
  | [] => Ok grouped
  | term :: terms' =>
      match group_term grouped term with
      | Ok grouped' => group_loop grouped' terms'
      | Raise e => Raise e
      end
  end.

Definition keys {V} (m : gmap string V) : list string := (map_to_list m).*1.

Definition grouped_terms (term_map : gmap string (gset Z))
  : result (gmap string (list string)) :=
  group_loop ∅ (sorted (keys term_map)).

(** [l.remove(x)]: the first occurrence is dropped. *)
Fixpoint remove (x : string) (l : list string) : list string :=
  match l with
  | [] => []
  | y :: l' => if String.eqb y x then l' else y :: remove x l'
  end.

Definition sorted_letters (grouped : gmap string (list string)) : list string :=
  let sorted_letters := sorted (keys grouped) in
  if bool_decide ("#" ∈ sorted_letters)
  then remove "#" sorted_letters ++ ["#"]
  else sorted_letters.

Definition write_header : FileIO unit :=
  write ("// ===============================================" +:+ nl);;
  write ("// Typst Index Layout by Mutro" +:+ nl);;
  write ("// Based on previously approved format" +:+ nl);;
  write ("// ===============================================" +:+ nl +:+ nl);;
  write ("// 1. Document & Page Setup" +:+ nl);;
  write ("#set document(title: " +:+ dq +:+ "Index table" +:+ dq +:+ ", author: "
         +:+ dq +:+ "Mutro" +:+ dq +:+ ")" +:+ nl);;
  write ("#set page(paper: " +:+ dq +:+ "a4" +:+ dq
         +:+ ", margin: (x: 2cm, y: 2.5cm))" +:+ nl +:+ nl);;
  write ("// 2. Font Setup" +:+ nl);;
  write ("#set text(font: (" +:+ dq +:+ "New Computer Modern" +:+ dq +:+ ", "
         +:+ dq +:+ "Noto Serif CJK SC" +:+ dq +:+ "), size: 10pt)" +:+ nl +:+ nl);;
  write ("// 3. Title Section" +:+ nl);;
  write ("#align(center)[" +:+ nl);;
  write ("  #text(size: 24pt, weight: 600)[Index]" +:+ nl);;
  write ("]" +:+ nl +:+ "#v(2em)" +:+ nl +:+ nl);;
  write ("// 4. Main Content" +:+ nl);;
  write ("#columns(2, gutter: 1.5em)[" +:+ nl).

Definition write_term (term_map : gmap string (gset Z)) (term : string)
  : FileIO unit :=
  let pages :=
    join ", " (str <$> (sorted_int (elements (default ∅ (term_map !! term))))) in
  let escaped_term := replace "034"%char (bs +:+ dq) term in
  write ("  #text(weight: " +:+ dq +:+ "bold" +:+ dq +:+ ")[" +:+ escaped_term
         +:+ "]: " +:+ pages +:+ bs +:+ nl).

(** The body of the loop over the letters. *)
Definition write_bucket (term_map : gmap string (gset Z))
  (grouped : gmap string (list string)) (il : nat * string) : FileIO unit :=
  let '(i, letter) := il in
  (if 0 <? i then write nl else ret tt);;
  let display_letter := if String.eqb letter "#" then bs +:+ "#" else letter in
  write ("  // --- " +:+ letter +:+ " ---" +:+ nl);;
  write ("  #text(size: 18pt, weight: " +:+ dq +:+ "bold" +:+ dq +:+ ")["
         +:+ display_letter +:+ "]" +:+ nl);;
  write ("  #line(length: 100%)" +:+ nl);;
  write ("  #v(0.8em)" +:+ nl);;
  for_each (default [] (grouped !! letter)) (write_term term_map).

Definition save_results_as_txt `{Buffering} (term_map : gmap string (gset Z))
  : IO unit :=
  grouped ← lift (grouped_terms term_map);
  with_open (
    write_header;;
    for_each (enumerate (sorted_letters grouped)) (write_bucket term_map grouped);;
    write "]").

(** What a block of writes hands to the file object, string by string: what
    the buffer of a file object that passes nothing on holds after the block.
    And what this amounts to: the output. *)
Definition pieces_of (m : FileIO unit) : list string :=
  pending (snd (m (TextFile (World None true None) [] (λ _, false)))).


(** ** Auxiliary definitions

    Notions used to state and prove the properties below, and the inputs of
    the examples. *)

(** A pattern that cannot match the empty string. *)
Fixpoint nonnull (r : regex) : bool :=
  match r with
  | Class _ => true
  | Boundary | Empty | Many _ => false
  | Cat r1 r2 => nonnull r1 || nonnull r2
  | Or r1 r2 => nonnull r1 && nonnull r2
  end.

(** The string without its leading spaces. *)
Fixpoint skip_spaces (s : string) : string :=
  match s with
  | String a s' => if is_space a then skip_spaces s' else s
  | EmptyString => EmptyString
  end.

(** Where the slash pattern matches, and what is left after the match. *)
Definition slash_match (s : string) : option string :=
  match skip_spaces s with
  | String a s' => if Ascii.eqb "/"%char a then Some (skip_spaces s') else None
  | EmptyString => None
  end.

Definition starts_space (s : string) : bool :=
  match s with String a _ => is_space a | EmptyString => false end.

Definition starts_slash (s : string) : bool :=
  match s with String a _ => Ascii.eqb "/"%char a | EmptyString => false end.

(** No space next to a slash. *)
Fixpoint clean (s : string) : Prop :=
  match s with
  | EmptyString => True
  | String a s' =>
      (is_space a = true -> starts_slash s' = false)
      ∧ (Ascii.eqb "/"%char a = true -> starts_space s' = false)
      ∧ clean s'
  end.

(** How a block ends, and what the device holds, when the file is closed
    after the block: the last step of [with_open]. *)
Definition closing (rf : result unit * textfile) : result unit * world :=
  match flush (snd rf) with
  | (Ok _, f') => (fst rf, device f')
  | (Raise e, f') => (Raise e, device f')
  end.

(** [emits m cs]: on every file and device, [m] behaves as the writes of the
    strings [cs], one after the other. *)
Definition emits (m : FileIO unit) (cs : list string) : Prop :=
  ∀ f, m f = for_each cs write f.

Definition writer (m : FileIO unit) : Prop := ∃ cs, emits m cs.

(** The part of [save_results_as_txt] inside the [with] block. *)
Definition save_body (tm : gmap string (gset Z)) (grouped : gmap string (list string))
  : FileIO unit :=
  write_header;;
  for_each (enumerate (sorted_letters grouped)) (write_bucket tm grouped);;
  write "]".

(** The bucket a non-empty term goes to. *)
Definition bucket_key (term : string) : string :=
  let first_letter := char_upper (first_char term) in
  if String.leb "A" first_letter && String.leb first_letter "Z"
  then first_letter
  else "#".


(** Indexes used as examples. *)
Definition tm_cat : gmap string (gset Z) := {[ "cat" := {[ 1%Z ]} ]}.
Definition grouped_cat : gmap string (list string) := {[ "C" := ["cat"] ]}.

Definition tm_fox : gmap string (gset Z) :=
  {[ "quick" := {[ 1%Z ]}; "brown" := {[ 1%Z ]}; "fox" := {[ 1%Z ]} ]}.

Definition tm_3d : gmap string (gset Z) :=
  {[ "3d-printing" := {[ 4%Z ]}; "zebra" := {[ 1%Z ]}; "apple" := {[ 2%Z; 3%Z ]} ]}.
Definition grouped_3d : gmap string (list string) :=
  {[ "A" := ["apple"]; "Z" := ["zebra"]; "#" := ["3d-printing"] ]}.

(** ** Further notions

    Used by the properties of the second part. *)

(** The strings a pattern can match, word boundaries aside. *)
Inductive lang : regex -> string -> Prop :=
| lang_class p a : p a = true -> lang (Class p) (String a EmptyString)
| lang_boundary : lang Boundary EmptyString
| lang_empty : lang Empty EmptyString
| lang_cat r1 r2 w1 w2 : lang r1 w1 -> lang r2 w2 -> lang (Cat r1 r2) (w1 +:+ w2)
| lang_or_l r1 r2 w : lang r1 w -> lang (Or r1 r2) w
| lang_or_r r1 r2 w : lang r2 w -> lang (Or r1 r2) w
| lang_many_nil r : lang (Many r) EmptyString
| lang_many_cons r w1 w2 :
    lang r w1 -> lang (Many r) w2 -> lang (Many r) (w1 +:+ w2).

(** Every character of the string is in the class. *)
Fixpoint str_all (p : ascii -> bool) (s : string) : bool :=
  match s with
  | EmptyString => true
  | String a s' => p a && str_all p s'
  end.

(** The characters a pattern can consume. *)
Fixpoint chars_of (r : regex) (c : ascii) : bool :=
  match r with
  | Class p => p c
  | Boundary | Empty => false
  | Cat r1 r2 | Or r1 r2 => chars_of r1 c || chars_of r2 c
  | Many r' => chars_of r' c
  end.

(** Every space of the string belongs to a run of spaces that follows a slash
    ([after_slash] tells whether the string itself follows one) or that a
    slash follows. *)
Fixpoint good (after_slash : bool) (s : string) : Prop :=
  match s with
  | EmptyString => True
  | String a s' =>
      if Ascii.eqb "/"%char a then good true s'
      else if is_space a
           then (after_slash = true ∨ starts_slash (skip_spaces s') = true)
                ∧ good after_slash s'
           else good false s'
  end.

(** The characters of a term of the words modes: a-z, hyphen, period, slash. *)
Definition term_char (c : ascii) : bool :=
  is_lower c || Ascii.eqb c "-"%char || Ascii.eqb c "."%char || Ascii.eqb c "/"%char.

(** The characters of a lowercased phrase: a-z and spaces. *)
Definition phrase_char (c : ascii) : bool := is_lower c || is_space c.

(** ** Documents on disk

    [extract_from_docx] and the dispatch of [_run_backend_task].  The
    libraries they drive are parameters: [fitz_open] opens a document, reads
    the text of its pages and closes it, as [extract_from_pdf] does whether
    the reading succeeds or fails; [convert] is
    [docx2pdf.convert], [path_exists] and [os_remove] are [os.path.exists] and
    [os.remove]; [disk] is the state of the file system and [error] the
    exceptions these libraries raise. *)

Inductive platform : Type := Posix | Windows.

(** [os.sep] and [os.altsep] *)
Definition is_sep (pf : platform) (c : ascii) : bool :=
  match pf with
  | Posix => Ascii.eqb c "/"%char
  | Windows => Ascii.eqb c "092"%char || Ascii.eqb c "/"%char
  end.

(** [s.rfind(c)] for the characters of a class: the last index, or -1. *)
Fixpoint rfind (p : ascii -> bool) (s : string) : Z :=
  match s with
  | EmptyString => (-1)%Z
  | String a s' =>
      let r := rfind p s' in
      if (0 <=? r)%Z then (r + 1)%Z else if p a then 0%Z else (-1)%Z
  end.

(** The loop of [_splitext]: from the index [i], is one of the next [n]
    characters not a period? *)
Fixpoint not_only_dots (p : string) (i n : nat) : bool :=
  match n with
  | O => false
  | S n' =>
      match String.get i p with
      | Some c => if Ascii.eqb c "."%char then not_only_dots p (S i) n' else true
      | None => true
      end
  end.

(** [os.path.splitext(p)] *)
Definition splitext (pf : platform) (p : string) : string * string :=
  let sepIndex := rfind (is_sep pf) p in
  let dotIndex := rfind (Ascii.eqb "."%char) p in
  if (sepIndex <? dotIndex)%Z
     && not_only_dots p (Z.to_nat (sepIndex + 1)) (Z.to_nat (dotIndex - (sepIndex + 1)))
  then (String.substring 0 (Z.to_nat dotIndex) p, str_drop (Z.to_nat dotIndex) p)
  else (p, EmptyString).

(** What a task can fail with: an exception of the backend, the value error
    of the dispatch with the extension it reports, an exception of a
    library. *)
Inductive failure (error : Type) : Type :=
| Backend (e : exn)
| ValueError (extension : string)
| Library (e : error).
Arguments Backend {error} e.
Arguments ValueError {error} extension.
Arguments Library {error} e.

Section Documents.
Context {disk error : Type}.
Variable fitz_open : string -> disk -> error + list string.
Variable convert : string -> string -> disk -> option error * disk.
Variable path_exists : string -> disk -> bool.
Variable os_remove : string -> disk -> option error * disk.
Variable pf : platform.
Variable FILE_PROCESSING_AVAILABLE : bool.

(** [extract_from_pdf] from the path of the document. *)
Definition extract_from_pdf_path (pdf_path mode : string) (d : disk)
  : failure error + gmap string (gset Z) :=
  if negb FILE_PROCESSING_AVAILABLE then inl (Backend ImportError)
  else
    match fitz_open pdf_path d with
    | inl e => inl (Library e)
    | inr pdf_doc =>
        match extract_from_pdf FILE_PROCESSING_AVAILABLE pdf_doc mode with
        | Ok term_map => inr term_map
        | Raise e => inl (Backend e)
        end
    end.

(** The [finally] clause of [extract_from_docx], entered with the outcome [r]
    of the [try] block. *)
Definition remove_temp {A} (temp_pdf_path : string) (r : failure error + A) (d : disk)
  : (failure error + A) * disk :=
  if negb (String.eqb temp_pdf_path EmptyString) && path_exists temp_pdf_path d
  then
    match os_remove temp_pdf_path d with
    | (Some e, d') => (inl (Library e), d')
    | (None, d') => (r, d')
    end
  else (r, d).

Definition extract_from_docx (docx_path mode : string) (d : disk)
  : (failure error + gmap string (gset Z)) * disk :=
  if negb FILE_PROCESSING_AVAILABLE then (inl (Backend ImportError), d)
  else
    let temp_pdf_path := fst (splitext pf docx_path) +:+ "_temp.pdf" in
    match convert docx_path temp_pdf_path d with
    | (Some e, d') => remove_temp temp_pdf_path (inl (Library e)) d'
    | (None, d') =>
        remove_temp temp_pdf_path (extract_from_pdf_path temp_pdf_path mode d') d'
    end.

(** The outcome that [_run_backend_task] hands over to
    [on_processing_complete]: the index or the exception caught. *)
Definition _run_backend_task (file_path extraction_mode : string) (d : disk)
  : (failure error + gmap string (gset Z)) * disk :=
  let extension := snd (splitext pf file_path) in
  if String.eqb (lower extension) ".docx" then
    extract_from_docx file_path extraction_mode d
  else if String.eqb (lower extension) ".pdf" then
    (extract_from_pdf_path file_path extraction_mode d, d)
  else (inl (ValueError extension), d).

End Documents.

(** *** The first variant

    In the first variant of the program [extract_from_docx] opens the
    converted document, reads its pages and closes it, all in the [try] block
    whose [finally] clause removes the temporary file, and the document is
    closed after the loop only.  This takes a closer look at the library:
    [fitz_pages path d] is what [fitz.open] obtains, an error or the pages of
    the document, each of which gives its text or an error when it is read,
    and [held path d] is the file system as long as the document at [path] is
    open. *)

Section FirstVariant.
Context {disk error : Type}.
Variable fitz_pages : string -> disk -> error + list (error + string).
Variable held : string -> disk -> disk.
Variable convert : string -> string -> disk -> option error * disk.
Variable path_exists : string -> disk -> bool.
Variable os_remove : string -> disk -> option error * disk.
Variable pf : platform.
Variable FILE_PROCESSING_AVAILABLE : bool.

(** The loop over the pages from page [i] on: the index, or the error of the
    first page that cannot be read. *)
Fixpoint page_loop (mode : string) (pages : list (error + string)) (i : nat)
  (term_map : gmap string (gset Z)) : error + gmap string (gset Z) :=
  match pages with
  | [] => inr term_map
  | inl e :: _ => inl e
  | inr text :: pages' =>
      let terms := _extract_terms text mode in
      page_loop mode pages' (S i) (record_page term_map (Z.of_nat i + 1) terms)
  end.

Definition extract_from_docx_v1 (docx_path mode : string) (d : disk)
  : (failure error + gmap string (gset Z)) * disk :=
  if negb FILE_PROCESSING_AVAILABLE then (inl (Backend ImportError), d)
  else
    let temp_pdf_path := fst (splitext pf docx_path) +:+ "_temp.pdf" in
    match convert docx_path temp_pdf_path d with
    | (Some e, d') => remove_temp path_exists os_remove temp_pdf_path (inl (Library e)) d'
    | (None, d') =>
        match fitz_pages temp_pdf_path d' with
        | inl e =>
            remove_temp path_exists os_remove temp_pdf_path (inl (Library e)) d'
        | inr pdf_doc =>
            match page_loop mode pdf_doc 0 ∅ with
            | inl e =>
                (* the document is still open *)
                remove_temp path_exists os_remove temp_pdf_path (inl (Library e))
                  (held temp_pdf_path d')
            | inr term_map =>
                (* pdf_doc.close() *)
                remove_temp path_exists os_remove temp_pdf_path (inr term_map) d'
            end
        end
    end.

(** What [extract_from_pdf] of the 2.0 variant sees of a document, which it
    closes whether the pages can be read or not: the error of [fitz.open] or
    of the first page that cannot be read, or else the texts of the pages. *)
Fixpoint page_texts (pages : list (error + string)) : error + list string :=
  match pages with
  | [] => inr []
  | inl e :: _ => inl e
  | inr text :: pages' =>
      match page_texts pages' with
      | inl e => inl e
      | inr texts => inr (text :: texts)
      end
  end.

Definition read_document (path : string) (d : disk) : error + list string :=
  match fitz_pages path d with
  | inl e => inl e
  | inr pages => page_texts pages
  end.

End FirstVariant.

(** A small file system for the examples: a file is the list of the texts of
    its pages, converting copies it, removing deletes it. *)
Definition demo_open (path : string) (d : gmap string (list string))
  : string + list string :=
  match d !! path with
  | Some pages => inr pages
  | None => inl "no such file"
  end.

Definition demo_convert (src dst : string) (d : gmap string (list string))
  : option string * gmap string (list string) :=
  match d !! src with
  | Some pages => (None, <[dst := pages]> d)
  | None => (Some "no such file", d)
  end.

Definition demo_exists (path : string) (d : gmap string (list string)) : bool :=
  bool_decide (is_Some (d !! path)).

Definition demo_remove (path : string) (d : gmap string (list string))
  : option string * gmap string (list string) :=
  (None, delete path d).

Definition demo_disk : gmap string (list string) :=
  {[ "/docs/pets.docx" := ["The cat"; "A Cat and a dog"];
     "/docs/pets_temp.pdf" := ["An older file"] ]}.

(** A file system that refuses to remove a file that is open, as Windows does:
    the files, with pages that give their text or cannot be read, and the
    paths of the documents that are open. *)
Record locking_disk : Type := LockingDisk {
  files : gmap string (list (string + string));
  in_use : gset string
}.

Definition locking_pages (path : string) (d : locking_disk)
  : string + list (string + string) :=
  match files d !! path with
  | Some pages => inr pages
  | None => inl "no such file"
  end.

Definition locking_held (path : string) (d : locking_disk) : locking_disk :=
  LockingDisk (files d) ({[ path ]} ∪ in_use d).

Definition locking_convert (src dst : string) (d : locking_disk)
  : option string * locking_disk :=
  match files d !! src with
  | Some pages => (None, LockingDisk (<[dst := pages]> (files d)) (in_use d))
  | None => (Some "no such file", d)
  end.

Definition locking_exists (path : string) (d : locking_disk) : bool :=
  bool_decide (is_Some (files d !! path)).

Definition locking_remove (path : string) (d : locking_disk)
  : option string * locking_disk :=
  if bool_decide (path ∈ in_use d) then (Some "the file is in use", d)
  else (None, LockingDisk (delete path (files d)) (in_use d)).

Definition damaged_disk : locking_disk :=
  LockingDisk {[ "C:/docs/pets.docx" := [inr "The cat"; inl "page damaged"] ]} ∅.

(** The stop words written without apostrophe. *)
Definition PLAIN_STOP_WORDS : gset string :=
  filter (λ word, str_all (λ c, negb (Ascii.eqb c "'"%char)) word = true) STOP_WORDS.

(** * Properties *)

(** ** Characters *)

Ltac by_cases_on_char c :=
  destruct c as [[] [] [] [] [] [] [] []]; vm_compute; try reflexivity; try discriminate.

Lemma lower_char_idemp c : lower_char (lower_char c) = lower_char c.
Proof. by_cases_on_char c. Qed.

Lemma is_space_lower_char c : is_space (lower_char c) = is_space c.
Proof. by_cases_on_char c. Qed.

Lemma upper_char_letter c : is_alpha c = true -> is_upper (upper_char c) = true.
Proof. by_cases_on_char c. Qed.

(** ** Strings *)

Lemma lower_idemp s : lower (lower s) = lower s.
Proof.
  unfold lower. induction s as [|c s IH]; simpl; [done|].
  by rewrite lower_char_idemp, IH.
Qed.

Lemma lower_nonempty s : s ≠ EmptyString -> lower s ≠ EmptyString.
Proof. by destruct s. Qed.

(** ** The matcher consumes input *)

Lemma star_loop_length step fuel :
  ∀ c c', In c' (star_loop step fuel c) ->
          String.length (snd c') <= String.length (snd c).
Proof.
  induction fuel as [|fuel IH]; intros c c'; simpl.
  - intros [<-|[]]. lia.
  - rewrite in_app_iff, in_flat_map. intros [(d & Hd & Hc')|[<-|[]]]; [|lia].
    apply filter_In in Hd as [_ Hd]. unfold shorter in Hd.
    apply Nat.ltb_lt in Hd. apply IH in Hc'. lia.
Qed.

(** The fuel of the iteration is never exhausted: a round must consume a
    character, so that more fuel than the length of the rest changes nothing. *)
Lemma star_loop_fuel step fuel :
  ∀ c, String.length (snd c) <= fuel ->
       star_loop step (S fuel) c = star_loop step fuel c.
Proof.
  induction fuel as [|fuel IH]; intros c Hlen.
  - cbn [star_loop]. replace (List.filter (shorter c) (step c)) with (@nil cfg); [done|].
    symmetry. induction (step c) as [|d l IHl]; [done|]. cbn [List.filter].
    replace (shorter c d) with false; [done|].
    symmetry. apply Nat.ltb_ge. lia.
  - change (flat_map (star_loop step (S fuel)) (List.filter (shorter c) (step c)) ++ [c]
            = flat_map (star_loop step fuel) (List.filter (shorter c) (step c)) ++ [c]).
    f_equal. induction (step c) as [|d l IHl]; [done|]. cbn [List.filter].
    destruct (shorter c d) eqn:Hd; [|done].
    cbn [flat_map]. rewrite IHl. f_equal.
    apply IH. unfold shorter in Hd. apply Nat.ltb_lt in Hd. lia.
Qed.

Lemma rmatch_length r :
  ∀ c c', In c' (rmatch r c) ->
          String.length (snd c') <= String.length (snd c).
Proof.
  induction r as [p| | |r1 IH1 r2 IH2|r1 IH1 r2 IH2|r IH]; intros c c'; simpl.
  - destruct (snd c) as [|a s] eqn:E; [done|].
    destruct (p a); [|done]. intros [<-|[]]. simpl. lia.
  - destruct (at_boundary _ _); [|done]. intros [<-|[]]. lia.
  - intros [<-|[]]. lia.
  - rewrite in_flat_map. intros (d & Hd & Hc').
    apply IH1 in Hd. apply IH2 in Hc'. lia.
  - rewrite in_app_iff. intros [H|H]; eauto.
  - apply star_loop_length.
Qed.

Lemma rmatch_progress r :
  nonnull r = true ->
  ∀ c c', In c' (rmatch r c) ->
          String.length (snd c') < String.length (snd c).
Proof.
  induction r as [p| | |r1 IH1 r2 IH2|r1 IH1 r2 IH2|r IH]; simpl; try done.
  - intros _ c c'. destruct (snd c) as [|a s] eqn:E; [done|].
    destruct (p a); [|done]. intros [<-|[]]. simpl. lia.
  - intros Hn c c'. rewrite in_flat_map. intros (d & Hd & Hc').
    pose proof (rmatch_length _ _ _ Hd). pose proof (rmatch_length _ _ _ Hc').
    apply orb_true_iff in Hn as [Hn|Hn].
    + specialize (IH1 Hn _ _ Hd). lia.
    + specialize (IH2 Hn _ _ Hc'). lia.
  - intros [Hn1 Hn2]%andb_true_iff c c'. rewrite in_app_iff. intros [H|H]; eauto.
Qed.

Lemma substring_nonempty n a s :
  0 < n -> String.substring 0 n (String a s) ≠ EmptyString.
Proof. destruct n; [lia|done]. Qed.

Section Progress.
Variable r : regex.
Hypothesis r_nonnull : nonnull r = true.

Lemma match_at_progress prev s n :
  match_at r prev s = Some n -> 0 < n <= String.length s.
Proof.
  unfold match_at. destruct (rmatch r (prev, s)) as [|c' l] eqn:E; [done|].
  intros [= <-]. pose proof (rmatch_progress r r_nonnull (prev, s) c') as H.
  rewrite E in H. specialize (H (or_introl eq_refl)). simpl in H. lia.
Qed.

Lemma findall_from_nonempty s :
  ∀ prev skip, Forall (λ m, m ≠ EmptyString) (findall_from r prev s skip).
Proof.
  induction s as [|a s IH]; intros prev skip.
  - destruct skip; simpl; [|done].
    destruct (match_at r prev EmptyString) as [n|] eqn:E; [|done].
    apply match_at_progress in E. simpl in E. lia.
  - destruct skip; simpl; [|apply IH].
    destruct (match_at r prev (String a s)) as [n|] eqn:E; [|apply IH].
    apply match_at_progress in E as [? _].
    constructor; [by apply substring_nonempty|apply IH].
Qed.

(** The matches listed by [findall] are not empty, so the way the scan
    resumes after an empty match plays no role. *)
Lemma findall_nonempty s m : m ∈ findall r s -> m ≠ EmptyString.
Proof.
  intros Hm. pose proof (findall_from_nonempty s None 0) as H.
  rewrite Forall_forall in H. by apply H.
Qed.
End Progress.

(** ** Term extraction *)

Lemma list_of_set_elem (l : list string) x : x ∈ list_of_set l ↔ x ∈ l.
Proof.
  unfold list_of_set. etrans; [apply elem_of_elements|apply elem_of_list_to_set].
Qed.

Lemma list_of_set_NoDup (l : list string) : NoDup (list_of_set l).
Proof. unfold list_of_set. apply NoDup_elements. Qed.

Lemma extract_words text :
  _extract_terms text "words"
  = filter (λ word, word ∉ STOP_WORDS) (_normalize_term <$> findall WORD_REGEX text).
Proof. reflexivity. Qed.

Lemma extract_words_no_filter text :
  _extract_terms text "words_no_filter" = _normalize_term <$> findall WORD_REGEX text.
Proof. reflexivity. Qed.

Lemma extract_phrases text :
  _extract_terms text "phrases"
  = list_of_set ((lower <$> findall PHRASE_REGEX text)
                 ++ filter (λ word, word ∉ STOP_WORDS)
                      (_normalize_term <$> findall WORD_REGEX text)).
Proof. reflexivity. Qed.

Lemma extract_other text mode :
  mode ≠ "words" -> mode ≠ "words_no_filter" -> mode ≠ "phrases" ->
  _extract_terms text mode = [].
Proof.
  intros H1 H2 H3. unfold _extract_terms.
  apply String.eqb_neq in H1, H2, H3. by rewrite H1, H2, H3.
Qed.

(** The extractor is driven by the three mode strings only. *)
Lemma extract_cases (P : list string -> Prop) text mode :
  P (_extract_terms text "words") ->
  P (_extract_terms text "words_no_filter") ->
  P (_extract_terms text "phrases") ->
  P [] ->
  P (_extract_terms text mode).
Proof.
  intros Hw Hn Hp He.
  destruct (decide (mode = "words")) as [->|H1]; [done|].
  destruct (decide (mode = "words_no_filter")) as [->|H2]; [done|].
  destruct (decide (mode = "phrases")) as [->|H3]; [done|].
  by rewrite extract_other.
Qed.

(** C1 (as the code has it). On "The Quick Brown Fox" the words mode returns
    quick, brown, fox; the phrases mode returns exactly these three words and
    the phrase "the quick brown fox": the capitalized word "The" opens the
    phrase and is part of it. *)
Theorem extract_quick_brown_fox :
  _extract_terms "The Quick Brown Fox" "words" = ["quick"; "brown"; "fox"]
  ∧ list_to_set (_extract_terms "The Quick Brown Fox" "phrases")
    = ({[ "the quick brown fox"; "quick"; "brown"; "fox" ]} : gset string).
Proof. split; vm_compute; reflexivity. Qed.

(** C1 as stated fails: "quick brown fox" is not a term of the phrases mode. *)
Lemma extract_quick_brown_fox_no_short_phrase :
  ¬ (_extract_terms "The Quick Brown Fox" "words" = ["quick"; "brown"; "fox"]
     ∧ "quick brown fox" ∈ _extract_terms "The Quick Brown Fox" "phrases").
Proof.
  assert (_extract_terms "The Quick Brown Fox" "phrases"
          = ["quick"; "fox"; "brown"; "the quick brown fox"]) as E
    by (vm_compute; reflexivity).
  intros [_ H]. rewrite E in H. apply list_elem_of_In in H.
  repeat (destruct H as [H|H]; [discriminate H|]). exact H.
Qed.

(** C4. In the words mode a term is returned exactly when the mode without
    filter returns it and it is no stop word; so every term of the words mode
    is a term of the mode without filter. *)
Theorem words_subset_words_no_filter text :
  _extract_terms text "words" ⊆ _extract_terms text "words_no_filter"
  ∧ ∀ term, term ∈ _extract_terms text "words"
            ↔ term ∈ _extract_terms text "words_no_filter" ∧ term ∉ STOP_WORDS.
Proof.
  rewrite extract_words, extract_words_no_filter. split.
  - intros term. rewrite list_elem_of_filter. tauto.
  - intros term. rewrite list_elem_of_filter. tauto.
Qed.

(** C9. A mode other than the three known ones yields no term. *)
Theorem unknown_mode_no_terms text mode :
  mode ≠ "words" -> mode ≠ "words_no_filter" -> mode ≠ "phrases" ->
  _extract_terms text mode = [].
Proof. apply extract_other. Qed.

Lemma unknown_mode_no_terms_witness :
  _extract_terms "The Quick Brown Fox" "sentences" = [].
Proof. apply unknown_mode_no_terms; discriminate. Defined.

(** ** Accumulation *)

Lemma lookup_record_page (tm : gmap string (gset Z)) page terms term :
  record_page tm page terms !! term
  = if decide (term ∈ terms) then Some (default ∅ (tm !! term) ∪ {[page]})
    else tm !! term.
Proof.
  unfold record_page. induction terms as [|x terms IH] using rev_ind.
  - done.
  - rewrite foldl_snoc. destruct (decide (x = term)) as [->|Hne].
    + rewrite lookup_insert_eq. rewrite decide_True by set_solver.
      rewrite IH. case_decide; simpl; [|done].
      f_equal. set_solver.
    + rewrite lookup_insert_ne by done. rewrite IH.
      repeat case_decide; set_solver.
Qed.

(** Only the set of the terms of a page matters. *)
Lemma record_page_set (tm : gmap string (gset Z)) page terms terms' :
  (∀ t, t ∈ terms ↔ t ∈ terms') ->
  record_page tm page terms = record_page tm page terms'.
Proof.
  intros H. apply map_eq. intros t. rewrite !lookup_record_page.
  repeat case_decide; naive_solver.
Qed.

Lemma record_page_comm (tm : gmap string (gset Z)) p1 ts1 p2 ts2 :
  record_page (record_page tm p1 ts1) p2 ts2
  = record_page (record_page tm p2 ts2) p1 ts1.
Proof.
  apply map_eq. intros t. rewrite !lookup_record_page.
  repeat case_decide; simpl; try done. f_equal. set_solver.
Qed.

Lemma record_all_permutation (ps ps' : list (Z * list string)) :
  ps ≡ₚ ps' -> ∀ tm, record_all tm ps = record_all tm ps'.
Proof.
  unfold record_all.
  induction 1 as [|[p ts] l l' _ IH|[p1 ts1] [p2 ts2] l|l1 l2 l3 _ IH1 _ IH2];
    intros tm; simpl.
  - done.
  - apply IH.
  - by rewrite record_page_comm.
  - by rewrite IH1.
Qed.

(** The pages on which a term was recorded. *)
Lemma record_all_pages (ps : list (Z * list string)) :
  ∀ tm term page,
    page ∈ default ∅ (record_all tm ps !! term)
    ↔ page ∈ default ∅ (tm !! term) ∨ ∃ terms, (page, terms) ∈ ps ∧ term ∈ terms.
Proof.
  unfold record_all. induction ps as [|[p ts] ps IH]; intros tm term page; simpl.
  - split; [auto|]. intros [H|(ts & H & _)]; [done|]. by inversion H.
  - rewrite IH, lookup_record_page. split.
    + intros [H|(ts' & H1 & H2)].
      * case_decide as Hin; simpl in H; [|by left].
        apply elem_of_union in H as [H|H]; [by left|].
        apply elem_of_singleton in H as ->. right. exists ts. split; [left|done].
      * right. exists ts'. split; [by right|done].
    + intros [H|(ts' & H1 & H2)].
      * left. case_decide; simpl; [set_solver|done].
      * apply elem_of_cons in H1 as [[= -> ->]|H1].
        -- left. rewrite decide_True by done. simpl. set_solver.
        -- right. eauto.
Qed.

Lemma record_all_keys (ps : list (Z * list string)) :
  ∀ tm term, is_Some (record_all tm ps !! term) ->
    is_Some (tm !! term) ∨ ∃ page terms, (page, terms) ∈ ps ∧ term ∈ terms.
Proof.
  unfold record_all. induction ps as [|[p ts] ps IH]; intros tm term; simpl.
  - auto.
  - intros [H|(p' & ts' & H1 & H2)]%IH.
    + rewrite lookup_record_page in H. case_decide as Hin; [|by left].
      right. exists p, ts. split; [left|done].
    + right. exists p', ts'. split; [by right|done].
Qed.

(** C5. Recording the same (page number, terms) pairs into an empty index in
    another order gives the same index, and a page is listed under a term
    exactly when one of the pairs has this page and contains the term. *)
Theorem accumulation_order_independent (ps ps' : list (Z * list string)) :
  ps ≡ₚ ps' ->
  record_all ∅ ps' = record_all ∅ ps
  ∧ ∀ term page, page ∈ default ∅ (record_all ∅ ps !! term)
                 ↔ ∃ terms, (page, terms) ∈ ps ∧ term ∈ terms.
Proof.
  intros H. split.
  - symmetry. by apply record_all_permutation.
  - intros term page. rewrite record_all_pages, lookup_empty. simpl.
    split; [intros [H'|H']; [set_solver|done]|auto].
Qed.

Lemma accumulation_order_independent_witness :
  record_all ∅ [(2%Z, ["cat"; "dog"]); (1%Z, ["cat"])]
  = record_all ∅ [(1%Z, ["cat"]); (2%Z, ["cat"; "dog"])]
  ∧ ∀ term page,
      page ∈ default ∅ (record_all ∅ [(1%Z, ["cat"]); (2%Z, ["cat"; "dog"])] !! term)
      ↔ ∃ terms, (page, terms) ∈ [(1%Z, ["cat"]); (2%Z, ["cat"; "dog"])] ∧ term ∈ terms.
Proof.
  apply (accumulation_order_independent
           [(1%Z, ["cat"]); (2%Z, ["cat"; "dog"])]
           [(2%Z, ["cat"; "dog"]); (1%Z, ["cat"])]).
  apply Permutation_swap.
Defined.

(** The page loop of [extract_from_pdf] records the pages in document order. *)
Lemma extract_from_pdf_record_all pdf_doc mode :
  extract_from_pdf true pdf_doc mode
  = Ok (record_all ∅ ((λ '(i, text), (Z.of_nat i + 1, _extract_terms text mode)%Z)
                       <$> enumerate pdf_doc)).
Proof.
  unfold extract_from_pdf, record_all. simpl. f_equal.
  generalize (enumerate pdf_doc) (∅ : gmap string (gset Z)).
  induction l as [|[i text] l IH]; intros tm; simpl; [done|apply IH].
Qed.

(** C2 (as the code has it). The phrases mode returns its terms without
    repetition; the two words modes return a list in which a term may repeat,
    and recording a page is insensitive to such repetitions: the index is the
    same as if the terms had been deduplicated first. *)
Theorem extract_terms_duplicates text :
  NoDup (_extract_terms text "phrases")
  ∧ ∀ mode tm page,
      record_page tm page (_extract_terms text mode)
      = record_page tm page (list_of_set (_extract_terms text mode)).
Proof.
  split.
  - rewrite extract_phrases. apply list_of_set_NoDup.
  - intros mode tm page. apply record_page_set.
    intros t. by rewrite list_of_set_elem.
Qed.

(** C2 as stated fails: the words mode returns "cat" twice. *)
Lemma extract_terms_words_repeats :
  _extract_terms "cat cat" "words" = ["cat"; "cat"]
  ∧ ¬ NoDup (_extract_terms "cat cat" "words").
Proof.
  assert (_extract_terms "cat cat" "words" = ["cat"; "cat"]) as E
    by (vm_compute; reflexivity).
  split; [done|]. rewrite E. intros H. apply NoDup_cons in H as [H _].
  apply H. left.
Qed.

(** ** Strings *)

Lemma str_app_nil_r (s : string) : s +:+ EmptyString = s.
Proof. unfold String.app. induction s; simpl; congruence. Qed.

Lemma str_app_assoc (s1 s2 s3 : string) : (s1 +:+ s2) +:+ s3 = s1 +:+ s2 +:+ s3.
Proof. unfold String.app. induction s1; simpl; congruence. Qed.

Lemma str_app_cons (a : ascii) (s1 s2 : string) :
  String a s1 +:+ s2 = String a (s1 +:+ s2).
Proof. reflexivity. Qed.

Lemma str_app_length (s1 s2 : string) :
  String.length (s1 +:+ s2) = String.length s1 + String.length s2.
Proof. unfold String.app. induction s1; simpl; congruence. Qed.

Lemma flatten_cons s l : flatten (s :: l) = s +:+ flatten l.
Proof. reflexivity. Qed.

Lemma flatten_app l1 l2 : flatten (l1 ++ l2) = flatten l1 +:+ flatten l2.
Proof.
  induction l1 as [|s l1 IH]; [done|].
  cbn [app]. by rewrite !flatten_cons, IH, str_app_assoc.
Qed.



Lemma substring_length n s :
  n <= String.length s -> String.length (String.substring 0 n s) = n.
Proof.
  revert s. induction n as [|n IH]; intros [|a s]; simpl; try done; try lia.
  intros Hn. by rewrite IH by lia.
Qed.

Lemma str_drop_length n s : String.length (str_drop n s) = String.length s - n.
Proof. revert s. induction n as [|n IH]; intros [|a s]; simpl; auto. Qed.

(** ** The device *)

Lemma bind_unfold {S A B} (m : prog S A) (k : A -> prog S B) s :
  (m ≫= k) s = match m s with
               | (Ok a, s') => k a s'
               | (Raise e, s') => (Raise e, s')
               end.
Proof. reflexivity. Qed.

(** A device with room for all the strings takes them all. *)
Lemma accept_fits pieces :
  ∀ n, String.length (flatten pieces) <= n -> accept n pieces = (pieces, []).
Proof.
  induction pieces as [|s pieces IH]; intros n; [done|].
  rewrite flatten_cons, str_app_length. intros Hn. cbn [accept].
  rewrite (proj2 (Nat.leb_le _ _)) by lia. by rewrite IH by lia.
Qed.

(** A device without room for all of them is full afterwards and takes
    nothing more; what comes later has no effect on what it holds. *)
Lemma accept_cut pieces :
  ∀ n, n < String.length (flatten pieces) ->
       snd (accept n pieces) ≠ []
       ∧ String.length (flatten (fst (accept n pieces))) = n
       ∧ accept 0 (snd (accept n pieces)) = ([], snd (accept n pieces))
       ∧ ∀ more, accept n (pieces ++ more)
                 = (fst (accept n pieces), snd (accept n pieces) ++ more).
Proof.
  induction pieces as [|s pieces IH]; intros n; [simpl; lia|].
  rewrite flatten_cons, str_app_length. intros Hn. cbn [accept app].
  destruct (String.length s <=? n) eqn:E.
  - apply Nat.leb_le in E.
    destruct (IH (n - String.length s)) as (H1 & H2 & H3 & H4); [lia|].
    destruct (accept (n - String.length s) pieces) as [taken kept] eqn:Ea.
    cbn [fst snd] in *. split; [done|].
    split; [rewrite flatten_cons, str_app_length; lia|].
    split; [done|]. intros more. by rewrite H4.
  - apply Nat.leb_gt in E. cbn [fst snd].
    pose proof (str_drop_length n s) as Hrest.
    split; [done|]. split; [|split; [|done]].
    + destruct n as [|n']; [done|].
      rewrite flatten_cons, str_app_length, substring_length by lia. simpl. lia.
    + cbn [accept]. destruct (String.length (str_drop n s)) eqn:El; [lia|done].
Qed.


(** How a block ends, and what the device holds, once the strings [cs] have
    all been handed to the file object and the file has been closed. *)
Lemma closing_pending w cs fl r :
  closing (r, TextFile w cs fl)
  = match quota w with
    | None =>
        (r, World (Some (default [] (file w) ++ cs)) (writable w) None)
    | Some n =>
        if decide (String.length (flatten cs) <= n)
        then (r, World (Some (default [] (file w) ++ cs)) (writable w)
                       (Some (n - String.length (flatten cs))))
        else (Raise OSError,
              World (Some (default [] (file w) ++ fst (accept n cs))) (writable w)
                    (Some 0))
    end.
Proof.
  unfold closing, flush. cbn [snd fst device pending full].
  destruct (quota w) as [n|]; cbn [fmap option_fmap option_map].
  - case_decide as Hn.
    + rewrite accept_fits by done. done.
    + destruct (accept_cut cs n) as (H1 & H2 & _); [lia|].
      destruct (accept n cs) as [taken kept]. cbn [fst snd] in *.
      rewrite H2, Nat.sub_diag. by destruct kept.
  - done.
Qed.

Lemma flush_unfold w cs fl :
  flush (TextFile w cs fl)
  = let '(taken, kept) :=
      match quota w with
      | Some n => accept n cs
      | None => (cs, [])
      end in
    (match kept with [] => Ok tt | _ => Raise OSError end,
     TextFile (World (Some (default [] (file w) ++ taken)) (writable w)
                 ((λ n, n - String.length (flatten taken)) <$> quota w))
       kept fl).
Proof. reflexivity. Qed.

Lemma accept_app pieces more :
  ∀ n, String.length (flatten pieces) <= n ->
       accept n (pieces ++ more)
       = (pieces ++ fst (accept (n - String.length (flatten pieces)) more),
          snd (accept (n - String.length (flatten pieces)) more)).
Proof.
  induction pieces as [|s pieces IH]; intros n.
  - intros _. cbn [app flatten foldr String.length]. rewrite Nat.sub_0_r.
    by destruct (accept n more).
  - rewrite flatten_cons, str_app_length. intros Hn. cbn [accept app].
    rewrite (proj2 (Nat.leb_le _ _)) by lia. rewrite IH by lia.
    by rewrite Nat.sub_add_distr.
Qed.

(** When the buffer is passed on does not matter in the end: closing the file
    after a sequence of writes leaves what handing all the strings to the
    device at once leaves. *)
Lemma run_writes cs :
  ∀ w p fl,
    closing (for_each cs write (TextFile w p fl))
    = closing (Ok tt, TextFile w (p ++ cs) fl).
Proof.
  induction cs as [|c cs IH]; intros w p fl.
  - by rewrite app_nil_r.
  - cbn [for_each]. rewrite bind_unfold. unfold write at 1.
    cbn [device pending full].
    replace (p ++ c :: cs) with ((p ++ [c]) ++ cs) by (by rewrite <- app_assoc).
    destruct (fl (p ++ [c])) eqn:Efull; [|by rewrite IH].
    generalize (p ++ [c]). clear p Efull. intros p.
    rewrite flush_unfold, (closing_pending w).
    destruct w as [l wr [n|]]; cbn [quota file writable fmap option_fmap option_map].
    + destruct (decide (String.length (flatten p) <= n)) as [Hn|Hn].
      * rewrite accept_fits by done. rewrite IH, closing_pending.
        cbn [quota file writable default app]. unfold id.
        rewrite flatten_app, str_app_length, <- !app_assoc.
        destruct (decide (String.length (flatten cs)
                          <= n - String.length (flatten p))).
        -- rewrite decide_True by lia. do 3 f_equal. lia.
        -- rewrite decide_False by lia. by rewrite accept_app.
      * destruct (accept_cut p n) as (H1 & H2 & H3 & H4); [lia|].
        rewrite decide_False by (rewrite flatten_app, str_app_length; lia).
        rewrite H4. cbn [fst].
        destruct (accept n p) as [taken kept]. cbn [fst snd] in *.
        destruct kept as [|k kept]; [done|].
        rewrite closing_pending. cbn [quota file writable default]. unfold id.
        rewrite H2, Nat.sub_diag. case_decide as Hk.
        -- rewrite accept_fits in H3 by done. done.
        -- rewrite H3. cbn [fst]. by rewrite app_nil_r.
    + rewrite IH, closing_pending. cbn [quota file writable default app]. unfold id.
      by rewrite <- !app_assoc.
Qed.

Lemma for_each_app {S A} (l1 l2 : list A) (body : A -> prog S unit) s :
  for_each (l1 ++ l2) body s = (for_each l1 body ;; for_each l2 body) s.
Proof.
  revert s. induction l1 as [|x l1 IH]; intros s.
  - done.
  - simpl. rewrite !bind_unfold. destruct (body x s) as [[[]|e] s']; [|done].
    by rewrite IH.
Qed.

(** Opening the file, running a block and closing the file. *)
Lemma with_open_closing `{Buffering} (m : FileIO unit) old wr q :
  with_open m (World old wr q)
  = if wr then closing (m (TextFile (World (Some []) true q) [] buffer_full))
    else (Raise OSError, World old false q).
Proof.
  unfold with_open, closing. cbn [writable quota]. destruct wr; [|done].
  by destruct (m _) as [r f].
Qed.

Lemma with_open_emits `{Buffering} m cs old q :
  emits m cs ->
  with_open m (World old true q)
  = match q with
    | None => (Ok tt, World (Some cs) true None)
    | Some n =>
        if decide (String.length (flatten cs) <= n)
        then (Ok tt, World (Some cs) true (Some (n - String.length (flatten cs))))
        else (Raise OSError, World (Some (fst (accept n cs))) true (Some 0))
    end.
Proof.
  intros Hm. by rewrite with_open_closing, Hm, run_writes, closing_pending.
Qed.

(** As long as the buffer is not full the strings written stay in it. *)
Lemma writes_buffered cs :
  ∀ w p fl,
    (∀ held, fl held = false) ->
    for_each cs write (TextFile w p fl) = (Ok tt, TextFile w (p ++ cs) fl).
Proof.
  induction cs as [|c cs IH]; intros w p fl Hfl.
  - by rewrite app_nil_r.
  - cbn [for_each]. rewrite bind_unfold. unfold write at 1.
    cbn [device pending full]. rewrite Hfl, IH by done. by rewrite <- app_assoc.
Qed.

Lemma emits_pieces m cs : emits m cs -> pieces_of m = cs.
Proof. intros H. unfold pieces_of. by rewrite H, writes_buffered. Qed.

Lemma writer_emits m : writer m -> emits m (pieces_of m).
Proof. intros [cs H]. by rewrite (emits_pieces m cs H). Qed.

Lemma emits_ret : emits (ret tt) [].
Proof. done. Qed.

Lemma emits_write s : emits (write s) [s].
Proof.
  intros f. simpl. rewrite bind_unfold. by destruct (write s f) as [[[]|e] f'].
Qed.

Lemma emits_bind m1 m2 c1 c2 :
  emits m1 c1 -> emits m2 c2 -> emits (m1 ;; m2) (c1 ++ c2).
Proof.
  intros H1 H2 f. rewrite for_each_app, !bind_unfold, H1.
  destruct (for_each c1 write f) as [[[]|e] f']; [apply H2|done].
Qed.

Lemma emits_for_each {A} (l : list A) (body : A -> FileIO unit) (g : A -> list string) :
  (∀ x, emits (body x) (g x)) -> emits (for_each l body) (flat_map g l).
Proof.
  intros H. induction l as [|x l IH]; [done|].
  simpl. by apply emits_bind.
Qed.

Lemma writer_ret : writer (ret tt).
Proof. eexists. apply emits_ret. Qed.

Lemma writer_write s : writer (write s).
Proof. eexists. apply emits_write. Qed.

Lemma writer_bind m1 m2 : writer m1 -> writer m2 -> writer (m1 ;; m2).
Proof. intros [c1 H1] [c2 H2]. eexists. by apply emits_bind. Qed.

Lemma writer_for_each {A} (l : list A) (body : A -> FileIO unit) :
  (∀ x, writer (body x)) -> writer (for_each l body).
Proof.
  intros H. induction l as [|x l IH]; [apply writer_ret|].
  simpl. by apply writer_bind.
Qed.

Lemma pieces_of_bind m1 m2 :
  writer m1 -> writer m2 -> pieces_of (m1 ;; m2) = pieces_of m1 ++ pieces_of m2.
Proof.
  intros H1%writer_emits H2%writer_emits. apply emits_pieces. by apply emits_bind.
Qed.

Lemma pieces_of_for_each {A} (l : list A) (body : A -> FileIO unit) :
  (∀ x, writer (body x)) ->
  pieces_of (for_each l body) = flat_map (λ x, pieces_of (body x)) l.
Proof.
  intros H. apply emits_pieces. apply emits_for_each.
  intros x. apply writer_emits, H.
Qed.

Create HintDb writer.
#[local] Hint Resolve writer_ret writer_write writer_bind writer_for_each : writer.

Lemma writer_header : writer write_header.
Proof. unfold write_header. auto 20 with writer. Qed.

Lemma writer_term tm term : writer (write_term tm term).
Proof. unfold write_term. auto with writer. Qed.

Lemma writer_bucket tm grouped il : writer (write_bucket tm grouped il).
Proof.
  destruct il as [i letter]. unfold write_bucket.
  apply writer_bind; [destruct (0 <? i); auto with writer|].
  repeat (apply writer_bind; [apply writer_write|]).
  apply writer_for_each. intros term. apply writer_term.
Qed.

Lemma writer_save_body tm grouped : writer (save_body tm grouped).
Proof.
  unfold save_body. apply writer_bind; [apply writer_header|].
  apply writer_bind; [|apply writer_write].
  apply writer_for_each. intros il. apply writer_bucket.
Qed.

Lemma save_results_as_txt_ok `{Buffering} tm grouped w :
  grouped_terms tm = Ok grouped ->
  save_results_as_txt tm w = with_open (save_body tm grouped) w.
Proof.
  intros Hg. unfold save_results_as_txt. rewrite bind_unfold. unfold lift.
  by rewrite Hg.
Qed.

Lemma save_results_as_txt_raise `{Buffering} tm e w :
  grouped_terms tm = Raise e -> save_results_as_txt tm w = (Raise e, w).
Proof.
  intros Hg. unfold save_results_as_txt. rewrite bind_unfold. unfold lift.
  by rewrite Hg.
Qed.


Lemma pieces_of_save_body tm grouped :
  pieces_of (save_body tm grouped)
  = pieces_of write_header
    ++ flat_map (λ il, pieces_of (write_bucket tm grouped il))
         (enumerate (sorted_letters grouped))
    ++ ["]"].
Proof.
  unfold save_body.
  rewrite pieces_of_bind;
    [|apply writer_header
     |apply writer_bind; [apply writer_for_each, writer_bucket|apply writer_write]].
  f_equal.
  rewrite pieces_of_bind;
    [|apply writer_for_each, writer_bucket|apply writer_write].
  rewrite pieces_of_for_each by apply writer_bucket. done.
Qed.

(** Saving an index that can be grouped: what happens on each device. *)
Lemma save_results_as_txt_run `{Buffering} tm grouped old wr q :
  grouped_terms tm = Ok grouped ->
  let pieces := pieces_of (save_body tm grouped) in
  save_results_as_txt tm (World old wr q)
  = if wr then
      match q with
      | None => (Ok tt, World (Some pieces) true None)
      | Some n =>
          if decide (String.length (flatten pieces) <= n)
          then (Ok tt, World (Some pieces) true
                         (Some (n - String.length (flatten pieces))))
          else (Raise OSError, World (Some (fst (accept n pieces))) true (Some 0))
      end
    else (Raise OSError, World old false q).
Proof.
  intros Hg pieces. rewrite (save_results_as_txt_ok tm grouped) by done.
  destruct wr; [|by rewrite with_open_closing].
  apply with_open_emits, writer_emits, writer_save_body.
Qed.






(** With a buffer of the default size the whole output of a small index stays
    in the buffer during the block: no write fails, and the error of a device
    that is full comes when the file is closed. *)
Example save_body_buffered w :
  save_body tm_cat grouped_cat (TextFile w [] buffer_full)
  = (Ok tt, TextFile w (pieces_of (save_body tm_cat grouped_cat)) buffer_full).
Proof. vm_compute. reflexivity. Qed.

(** ** Extracted terms are not empty *)

Lemma app_nonempty_l (s1 s2 : string) : s1 ≠ EmptyString -> s1 +:+ s2 ≠ EmptyString.
Proof. by destruct s1. Qed.

Lemma sub_nonempty r repl s :
  repl ≠ EmptyString -> s ≠ EmptyString -> sub r repl s ≠ EmptyString.
Proof.
  intros Hrepl Hs. destruct s as [|a s]; [done|].
  unfold sub. cbn [sub_from].
  destruct (match_at r None (String a s)); [by apply app_nonempty_l|done].
Qed.

Lemma normalize_term_nonempty term :
  term ≠ EmptyString -> _normalize_term term ≠ EmptyString.
Proof. intros H. by apply lower_nonempty, sub_nonempty. Qed.

Lemma normalized_words_nonempty text term :
  term ∈ _normalize_term <$> findall WORD_REGEX text -> term ≠ EmptyString.
Proof.
  intros (w & -> & Hw)%list_elem_of_fmap.
  by apply normalize_term_nonempty, (findall_nonempty WORD_REGEX eq_refl text).
Qed.

Lemma extract_terms_nonempty text mode term :
  term ∈ _extract_terms text mode -> term ≠ EmptyString.
Proof.
  apply (extract_cases (λ l, term ∈ l -> term ≠ EmptyString)).
  - rewrite extract_words. intros [_ H]%list_elem_of_filter.
    by apply (normalized_words_nonempty text).
  - rewrite extract_words_no_filter. apply normalized_words_nonempty.
  - rewrite extract_phrases, list_of_set_elem, elem_of_app.
    intros [(w & -> & Hw)%list_elem_of_fmap|[_ H]%list_elem_of_filter].
    + by apply lower_nonempty, (findall_nonempty PHRASE_REGEX eq_refl text).
    + by apply (normalized_words_nonempty text).
  - by inversion 1.
Qed.

Lemma elem_of_keys {V} (m : gmap string V) k : k ∈ keys m ↔ is_Some (m !! k).
Proof.
  unfold keys. rewrite list_elem_of_fmap. split.
  - intros ([k' v] & -> & H%elem_of_map_to_list). by exists v.
  - intros [v H]. exists (k, v). by rewrite elem_of_map_to_list.
Qed.

Lemma elem_of_sorted l x : x ∈ sorted l ↔ x ∈ l.
Proof. unfold sorted. by rewrite merge_sort_Permutation. Qed.

Lemma group_loop_ok terms :
  Forall (λ term, term ≠ EmptyString) terms ->
  ∀ grouped, ∃ grouped', group_loop grouped terms = Ok grouped'.
Proof.
  induction 1 as [|term terms Hterm _ IH]; intros grouped; simpl; [by eexists|].
  destruct term as [|c rest]; [done|]. simpl.
  destruct (_ && _); apply IH.
Qed.

Lemma extracted_keys_nonempty avail pdf_doc mode tm term :
  extract_from_pdf avail pdf_doc mode = Ok tm ->
  is_Some (tm !! term) -> term ≠ EmptyString.
Proof.
  destruct avail; [|done]. rewrite extract_from_pdf_record_all. intros [= <-].
  intros [H|(page & terms & H1 & H2)]%record_all_keys.
  - rewrite lookup_empty in H. by destruct H.
  - apply list_elem_of_fmap in H1 as ([i text] & [= -> ->] & _).
    by apply (extract_terms_nonempty text mode).
Qed.

Lemma save_results_as_txt_outcome tm grouped w :
  grouped_terms tm = Ok grouped ->
  fst (save_results_as_txt tm w) = Ok tt
  ∨ fst (save_results_as_txt tm w) = Raise OSError.
Proof.
  intros H. destruct w as [old wr q].
  rewrite (save_results_as_txt_run tm grouped) by done.
  destruct wr; [|by right].
  destruct q as [n|]; [|by left]. case_decide; [by left|by right].
Qed.

(** C10. Every term returned by the extractor is a non-empty string, so on an
    index built by extraction the grouping by first letter succeeds and
    [save_results_as_txt] never raises the index error. *)
Theorem extracted_terms_are_nonempty :
  (∀ text mode term, term ∈ _extract_terms text mode -> term ≠ EmptyString)
  ∧ ∀ avail pdf_doc mode tm,
      extract_from_pdf avail pdf_doc mode = Ok tm ->
      (∃ grouped, grouped_terms tm = Ok grouped)
      ∧ ∀ w, fst (save_results_as_txt tm w) ≠ Raise IndexError.
Proof.
  split; [apply extract_terms_nonempty|].
  intros avail pdf_doc mode tm Htm.
  assert (∃ grouped, grouped_terms tm = Ok grouped) as [grouped Hg].
  { apply group_loop_ok, Forall_forall. intros term.
    rewrite elem_of_sorted, elem_of_keys.
    by apply (extracted_keys_nonempty avail pdf_doc mode). }
  split; [by exists grouped|].
  intros w. by destruct (save_results_as_txt_outcome tm grouped w Hg) as [-> | ->].
Qed.

Lemma extract_from_pdf_fox :
  extract_from_pdf true ["The Quick Brown Fox"] "words" = Ok tm_fox.
Proof. vm_compute. reflexivity. Qed.

Lemma extract_terms_fox :
  _extract_terms "The Quick Brown Fox" "words" = ["quick"; "brown"; "fox"].
Proof. vm_compute. reflexivity. Qed.

Lemma extracted_terms_are_nonempty_witness :
  "fox" ≠ EmptyString
  ∧ (∃ grouped, grouped_terms tm_fox = Ok grouped)
  ∧ ∀ w, fst (save_results_as_txt tm_fox w) ≠ Raise IndexError.
Proof.
  destruct extracted_terms_are_nonempty as [H1 H2]. split.
  - apply (H1 "The Quick Brown Fox" "words").
    rewrite extract_terms_fox. apply list_elem_of_In. right. right. by left.
  - exact (H2 true ["The Quick Brown Fox"] "words" tm_fox extract_from_pdf_fox).
Defined.

(** ** Grouping by first letter *)

Lemma group_term_bucket grouped c rest :
  group_term grouped (String c rest)
  = Ok (append_to grouped (bucket_key (String c rest)) (String c rest)).
Proof. unfold group_term, bucket_key. by destruct (_ && _). Qed.


(** A term that begins with an ASCII character goes by this character alone:
    to the bucket of its capital if it is a letter, and else to #. *)
Lemma bucket_key_ascii c rest :
  is_ascii c = true ->
  bucket_key (String c rest)
  = if is_alpha c then String (upper_char c) EmptyString else "#".
Proof.
  intros Hc. unfold bucket_key.
  assert (first_char (String c rest) = String c EmptyString) as ->.
  { unfold first_char. replace (char_width c) with 1; [by destruct rest|].
    revert Hc. by_cases_on_char c. }
  revert Hc. by_cases_on_char c.
Qed.

(** A term that begins with a character outside ASCII goes to # unless the
    character is one of the table. *)
Lemma bucket_key_other c rest :
  is_ascii c = false ->
  first_char (String c rest) ∉ SPECIAL_UPPER.*1 ->
  bucket_key (String c rest) = "#".
Proof.
  intros Hc Hnot. unfold bucket_key, char_upper.
  assert (find (λ cu, String.eqb (fst cu) (first_char (String c rest))) SPECIAL_UPPER
          = None) as ->.
  { revert Hnot. generalize (first_char (String c rest)). intros ch.
    induction SPECIAL_UPPER as [|[k u] l IH]; [done|].
    rewrite fmap_cons, not_elem_of_cons. intros [Hne Hl]. cbn [find fst].
    by rewrite (proj2 (String.eqb_neq k ch)), IH by done. }
  revert Hc. by_cases_on_char c.
Qed.

Lemma bucket_key_special c u rest :
  (c, u) ∈ SPECIAL_UPPER -> bucket_key (c +:+ rest) = u.
Proof.
  intros Hin.
  destruct rest;
    repeat (apply elem_of_cons in Hin as [[= -> ->]|Hin]; [vm_compute; reflexivity|]);
    by apply elem_of_nil in Hin.
Qed.

Example bucket_key_examples :
  bucket_key <$> ["zebra"; "Apple"; "3d-printing"; "-dash"; "ſoo"; "ßa"; "ﬁre";
                  "éa"; "中文"]
  = ["Z"; "A"; "#"; "#"; "S"; "SS"; "FI"; "#"; "#"].
Proof. reflexivity. Qed.

Lemma lookup_append_to grouped k term k' :
  default [] (append_to grouped k term !! k')
  = default [] (grouped !! k') ++ (if decide (k = k') then [term] else []).
Proof.
  unfold append_to. case_decide as H.
  - subst. by rewrite lookup_insert_eq.
  - rewrite lookup_insert_ne by done. by rewrite app_nil_r.
Qed.

Lemma group_loop_spec terms :
  ∀ grouped grouped',
    group_loop grouped terms = Ok grouped' ->
    (∀ k, default [] (grouped' !! k)
          = default [] (grouped !! k) ++ filter (λ t, bucket_key t = k) terms)
    ∧ dom grouped' = dom grouped ∪ list_to_set (bucket_key <$> terms).
Proof.
  induction terms as [|term terms IH]; intros grouped grouped'; simpl.
  - intros [= <-]. split; [intros k; by rewrite app_nil_r|set_solver].
  - destruct term as [|c rest]; [done|]. rewrite group_term_bucket.
    intros [IH1 IH2]%IH. split.
    + intros k. rewrite IH1, lookup_append_to, <- app_assoc. f_equal.
      rewrite filter_cons. by repeat case_decide.
    + rewrite IH2. unfold append_to. rewrite dom_insert_L. set_solver.
Qed.

Lemma grouped_terms_bucket tm grouped k :
  grouped_terms tm = Ok grouped ->
  default [] (grouped !! k) = filter (λ t, bucket_key t = k) (sorted (keys tm)).
Proof.
  intros [H _]%group_loop_spec. by rewrite H, lookup_empty.
Qed.

Lemma grouped_terms_dom tm grouped k :
  grouped_terms tm = Ok grouped ->
  k ∈ dom grouped ↔ ∃ term, is_Some (tm !! term) ∧ k = bucket_key term.
Proof.
  intros [_ H]%group_loop_spec. rewrite H, dom_empty_L.
  rewrite elem_of_union, elem_of_list_to_set, list_elem_of_fmap.
  setoid_rewrite elem_of_sorted. setoid_rewrite elem_of_keys.
  split.
  - intros [Hk|(term & -> & Hin)]; [by apply not_elem_of_empty in Hk|eauto].
  - intros (term & Hin & ->). right. eauto.
Qed.



Lemma strictly_sorted (l : list string) :
  StronglySorted String.le l -> NoDup l -> StronglySorted (strict String.le) l.
Proof.
  induction 1 as [|x l Hl IH Hx]; [constructor|].
  intros [Hnin Hnd]%NoDup_cons. constructor; [auto|].
  rewrite Forall_forall in Hx |- *. intros y Hy. split; [auto|].
  intros Hyx. assert (x = y) as -> by (apply (anti_symm String.le); auto). done.
Qed.






Lemma grouped_terms_3d : grouped_terms tm_3d = Ok grouped_3d.
Proof. vm_compute. reflexivity. Qed.

Example sorted_letters_3d : sorted_letters grouped_3d = ["A"; "Z"; "#"].
Proof. vm_compute. reflexivity. Qed.



(** ** The two-page example *)

Lemma elem_of_terms_set (terms terms' : list string) :
  list_to_set terms =@{gset string} list_to_set terms' ->
  ∀ t, t ∈ terms ↔ t ∈ terms'.
Proof.
  intros H t.
  by rewrite <- (elem_of_list_to_set (C:=gset string) t terms), H, elem_of_list_to_set.
Qed.

(** C7. When the terms extracted from page 1 are cat and those from page 2
    are cat and dog, the index is cat on pages 1 and 2 and dog on page 2, and
    the output written holds, after the header, the block of C with the line
    of cat and its pages 1, 2, then a blank line and the block of D with the
    line of dog and its page 2. *)
Theorem two_pages_cat_dog page1 page2 mode :
  list_to_set (_extract_terms page1 mode) =@{gset string} {[ "cat" ]} ->
  list_to_set (_extract_terms page2 mode) =@{gset string} {[ "cat"; "dog" ]} ->
  extract_from_pdf true [page1; page2] mode
  = Ok ({[ "cat" := {[ 1%Z; 2%Z ]}; "dog" := {[ 2%Z ]} ]} : gmap string (gset Z))
  ∧ ∀ old,
      save_results_as_txt {[ "cat" := {[ 1%Z; 2%Z ]}; "dog" := {[ 2%Z ]} ]}
        (World old true None)
      = (Ok tt,
         World (Some
           (pieces_of write_header
            ++ [ "  // --- C ---" +:+ nl;
                 "  #text(size: 18pt, weight: " +:+ dq +:+ "bold" +:+ dq +:+ ")[C]" +:+ nl;
                 "  #line(length: 100%)" +:+ nl;
                 "  #v(0.8em)" +:+ nl;
                 "  #text(weight: " +:+ dq +:+ "bold" +:+ dq +:+ ")[cat]: 1, 2" +:+ bs +:+ nl;
                 nl;
                 "  // --- D ---" +:+ nl;
                 "  #text(size: 18pt, weight: " +:+ dq +:+ "bold" +:+ dq +:+ ")[D]" +:+ nl;
                 "  #line(length: 100%)" +:+ nl;
                 "  #v(0.8em)" +:+ nl;
                 "  #text(weight: " +:+ dq +:+ "bold" +:+ dq +:+ ")[dog]: 2" +:+ bs +:+ nl;
                 "]" ]))
           true None).
Proof.
  intros H1 H2. split.
  - rewrite extract_from_pdf_record_all. f_equal. unfold record_all. simpl.
    rewrite (record_page_set _ _ (_extract_terms page1 mode) ["cat"]).
    2:{ apply elem_of_terms_set. rewrite H1. set_solver. }
    rewrite (record_page_set _ _ (_extract_terms page2 mode) ["cat"; "dog"]).
    2:{ apply elem_of_terms_set. rewrite H2. set_solver. }
    vm_compute. reflexivity.
  - intros old.
    assert (grouped_terms {[ "cat" := {[ 1%Z; 2%Z ]}; "dog" := {[ 2%Z ]} ]}
            = Ok {[ "C" := ["cat"]; "D" := ["dog"] ]}) as Hg
      by (vm_compute; reflexivity).
    rewrite (save_results_as_txt_run _ _ old true None Hg).
    vm_compute. reflexivity.
Qed.

Lemma two_pages_cat_dog_witness :
  list_to_set (_extract_terms "The cat" "words") =@{gset string} {[ "cat" ]}
  ∧ list_to_set (_extract_terms "A Cat and a dog" "words")
    =@{gset string} {[ "cat"; "dog" ]}
  ∧ extract_from_pdf true ["The cat"; "A Cat and a dog"] "words"
    = Ok ({[ "cat" := {[ 1%Z; 2%Z ]}; "dog" := {[ 2%Z ]} ]} : gmap string (gset Z)).
Proof.
  assert (list_to_set (_extract_terms "The cat" "words") =@{gset string} {[ "cat" ]})
    as H1 by (vm_compute; reflexivity).
  assert (list_to_set (_extract_terms "A Cat and a dog" "words")
          =@{gset string} {[ "cat"; "dog" ]}) as H2 by (vm_compute; reflexivity).
  split; [exact H1|]. split; [exact H2|].
  exact (proj1 (two_pages_cat_dog "The cat" "A Cat and a dog" "words" H1 H2)).
Defined.

(** ** Normalization *)

#[local] Arguments Ascii.eqb : simpl never.

Lemma space_not_slash a : is_space a = true -> Ascii.eqb "/"%char a = false.
Proof. by_cases_on_char a. Qed.

Lemma slash_eqb_lower_char a :
  Ascii.eqb "/"%char (lower_char a) = Ascii.eqb "/"%char a.
Proof. by_cases_on_char a. Qed.

Lemma shorter_cons prev prev' a s : shorter (prev, String a s) (prev', s) = true.
Proof. unfold shorter. simpl. apply Nat.ltb_lt. lia. Qed.

Lemma star_loop_space fuel prev a s :
  star_loop (rmatch Space) (S fuel) (prev, String a s)
  = if is_space a
    then star_loop (rmatch Space) fuel (Some a, s) ++ [(prev, String a s)]
    else [(prev, String a s)].
Proof.
  cbn [star_loop].
  change (rmatch Space (prev, String a s))
    with (if is_space a then [(Some a, s)] else []).
  destruct (is_space a); [|done].
  cbn [List.filter]. rewrite shorter_cons. cbn [flat_map]. by rewrite app_nil_r.
Qed.

Lemma star_loop_end step fuel prev :
  (∀ c, step (c, EmptyString) = []) ->
  star_loop step fuel (prev, EmptyString) = [(prev, EmptyString)].
Proof. intros H. destruct fuel; [done|]. cbn [star_loop]. by rewrite H. Qed.

Lemma star_space_slash fuel :
  ∀ prev s, String.length s <= fuel ->
    flat_map (rmatch (Chr "/")) (star_loop (rmatch Space) fuel (prev, s))
    = match skip_spaces s with
      | String a s' => if Ascii.eqb "/"%char a then [(Some a, s')] else []
      | EmptyString => []
      end.
Proof.
  induction fuel as [|fuel IH]; intros prev s Hlen.
  - destruct s; [done|simpl in Hlen; lia].
  - destruct s as [|a s]; [by rewrite star_loop_end|].
    simpl in Hlen. rewrite star_loop_space. cbn [skip_spaces].
    destruct (is_space a) eqn:Ha.
    + rewrite flat_map_app, IH by lia.
      cbn [flat_map]. rewrite app_nil_r.
      change (rmatch (Chr "/") (prev, String a s))
        with (if Ascii.eqb "/"%char a then [(Some a, s)] else []).
      rewrite (space_not_slash a Ha). by rewrite app_nil_r.
    + cbn [flat_map]. by rewrite app_nil_r.
Qed.

Lemma star_space_head fuel :
  ∀ prev s, String.length s <= fuel ->
    ∃ prev' rest, star_loop (rmatch Space) fuel (prev, s)
                  = (prev', skip_spaces s) :: rest.
Proof.
  induction fuel as [|fuel IH]; intros prev s Hlen.
  - destruct s; [by eexists _, _|simpl in Hlen; lia].
  - destruct s as [|a s]; [rewrite star_loop_end by done; by eexists _, _|].
    simpl in Hlen. rewrite star_loop_space. cbn [skip_spaces].
    destruct (is_space a) eqn:Ha; [|by eexists _, _].
    destruct (IH (Some a) s) as (prev' & rest & ->); [lia|].
    by eexists _, _.
Qed.

Lemma match_at_slash prev s :
  match_at SLASH_REGEX prev s
  = (λ rest, String.length s - String.length rest) <$> slash_match s.
Proof.
  unfold match_at, SLASH_REGEX, slash_match. cbn [rmatch snd].
  rewrite star_space_slash by done.
  destruct (skip_spaces s) as [|a s']; [done|].
  destruct (Ascii.eqb "/" a); [|done].
  cbn [flat_map rmatch snd]. rewrite app_nil_r.
  by destruct (star_space_head (String.length s') (Some a) s') as (prev' & rest & ->).
Qed.

Lemma skip_spaces_length s : String.length (skip_spaces s) <= String.length s.
Proof. induction s as [|a s IH]; simpl; [done|]. destruct (is_space a); simpl; lia. Qed.

Lemma str_drop_0 s : str_drop 0 s = s.
Proof. by destruct s. Qed.

Lemma str_drop_drop s : ∀ k j, str_drop j (str_drop k s) = str_drop (k + j) s.
Proof.
  induction s as [|a s IH]; intros k j.
  - by destruct k, j.
  - destruct k; [done|]. apply IH.
Qed.

Lemma skip_spaces_drop s :
  str_drop (String.length s - String.length (skip_spaces s)) s = skip_spaces s.
Proof.
  induction s as [|a s IH]; [done|]. cbn [skip_spaces].
  destruct (is_space a).
  - pose proof (skip_spaces_length s).
    replace (String.length (String a s) - String.length (skip_spaces s))
      with (S (String.length s - String.length (skip_spaces s))) by (simpl; lia).
    apply IH.
  - by rewrite Nat.sub_diag.
Qed.

Lemma slash_match_drop s rest :
  slash_match s = Some rest ->
  String.length rest < String.length s
  ∧ str_drop (String.length s - String.length rest) s = rest.
Proof.
  unfold slash_match. pose proof (skip_spaces_length s) as Hs.
  pose proof (skip_spaces_drop s) as Hd.
  destruct (skip_spaces s) as [|a s'] eqn:E; [done|].
  destruct (Ascii.eqb "/" a); [|done]. intros [= <-].
  pose proof (skip_spaces_length s') as Hs'. pose proof (skip_spaces_drop s') as Hd'.
  simpl in Hs. split; [lia|].
  replace (String.length s - String.length (skip_spaces s'))
    with ((String.length s - String.length (String a s'))
          + S (String.length s' - String.length (skip_spaces s')))
    by (simpl; lia).
  by rewrite <- str_drop_drop, Hd.
Qed.

Lemma sub_from_slash s :
  ∀ prev skip,
    sub_from SLASH_REGEX "/" prev s skip = sub SLASH_REGEX "/" (str_drop skip s).
Proof.
  unfold sub. induction s as [|a s IH]; intros prev skip.
  - destruct skip; cbn [sub_from str_drop]; rewrite !match_at_slash; done.
  - destruct skip as [|k].
    + cbn [sub_from str_drop]. by rewrite !match_at_slash, !IH.
    + cbn [sub_from str_drop]. by rewrite IH.
Qed.

Lemma sub_slash_cons a s :
  sub SLASH_REGEX "/" (String a s)
  = match slash_match (String a s) with
    | Some rest => String "/" (sub SLASH_REGEX "/" rest)
    | None => String a (sub SLASH_REGEX "/" s)
    end.
Proof.
  unfold sub at 1. cbn [sub_from]. rewrite match_at_slash.
  destruct (slash_match (String a s)) as [rest|] eqn:E; cbn [fmap option_fmap option_map].
  - apply slash_match_drop in E as [Hlen Hdrop]. rewrite sub_from_slash.
    destruct (String.length (String a s) - String.length rest) as [|n] eqn:En; [lia|].
    simpl in Hdrop. replace (S n - 1) with n by lia. by rewrite Hdrop.
  - by rewrite sub_from_slash, str_drop_0.
Qed.

Lemma skip_spaces_id s : starts_space s = false -> skip_spaces s = s.
Proof. destruct s as [|a s]; simpl; [done|]. by intros ->. Qed.

Lemma starts_space_skip s : starts_space (skip_spaces s) = false.
Proof.
  induction s as [|a s IH]; simpl; [done|].
  destruct (is_space a) eqn:E; [done|]. simpl. by rewrite E.
Qed.

Lemma clean_skip s :
  clean s -> starts_slash s = false -> starts_slash (skip_spaces s) = false.
Proof.
  induction s as [|a s IH]; [done|]. intros (H1 & _ & Hc) Hs. simpl.
  destruct (is_space a) eqn:E; [|done]. apply IH; auto.
Qed.

Lemma slash_match_none s :
  starts_slash (skip_spaces s) = false -> slash_match s = None.
Proof.
  unfold slash_match. destruct (skip_spaces s) as [|a s']; [done|]. simpl. by intros ->.
Qed.

(** Where no space is next to a slash, the substitution changes nothing. *)
Lemma sub_slash_clean s : clean s -> sub SLASH_REGEX "/" s = s.
Proof.
  induction s as [|a s IH]; [done|]. intros (H1 & H2 & Hc).
  rewrite sub_slash_cons. destruct (is_space a) eqn:Ha.
  - rewrite slash_match_none; [by rewrite IH|].
    simpl. rewrite Ha. apply clean_skip; auto.
  - unfold slash_match. simpl. rewrite Ha.
    destruct (Ascii.eqb "/" a) eqn:Es.
    + apply Ascii.eqb_eq in Es as <-. rewrite skip_spaces_id by auto. by rewrite IH.
    + by rewrite IH.
Qed.

Lemma sub_slash_head s :
  starts_slash (sub SLASH_REGEX "/" s) = bool_decide (is_Some (slash_match s))
  ∧ starts_space (sub SLASH_REGEX "/" s)
    = bool_decide (slash_match s = None) && starts_space s.
Proof.
  destruct s as [|a s]; [done|]. rewrite sub_slash_cons.
  destruct (slash_match (String a s)) as [rest|] eqn:E.
  - split; [|done]. by rewrite bool_decide_eq_true_2 by eauto.
  - split; [|done]. rewrite bool_decide_eq_false_2 by (by intros [? ?]).
    cbn [starts_slash]. revert E. unfold slash_match. cbn [skip_spaces].
    destruct (is_space a) eqn:Ha; [intros _; by apply space_not_slash|].
    by destruct (Ascii.eqb "/" a).
Qed.

(** After the substitution no space is next to a slash. *)
Lemma sub_slash_is_clean s : clean (sub SLASH_REGEX "/" s).
Proof.
  remember (String.length s) as n eqn:Hn. revert s Hn.
  induction n as [n IH] using lt_wf_ind. intros s ->.
  destruct s as [|a s]; [done|]. rewrite sub_slash_cons.
  destruct (slash_match (String a s)) as [rest|] eqn:E.
  - pose proof (slash_match_drop _ _ E) as [Hlen _].
    split; [done|]. split; [|by apply (IH (String.length rest))].
    intros _. rewrite (proj2 (sub_slash_head rest)).
    assert (starts_space rest = false) as ->; [|by rewrite andb_false_r].
    revert E. unfold slash_match. destruct (skip_spaces (String a s)) as [|b t]; [done|].
    destruct (Ascii.eqb "/" b); [|done]. intros [= <-]. apply starts_space_skip.
  - split; [|split; [|apply (IH (String.length s)); simpl; auto]].
    + intros Ha. rewrite (proj1 (sub_slash_head s)).
      apply bool_decide_eq_false_2. intros [rest Hrest].
      revert E. unfold slash_match in *. simpl. rewrite Ha.
      destruct (skip_spaces s) as [|b t]; [done|]. by destruct (Ascii.eqb "/" b).
    + intros Ha. revert E. unfold slash_match. cbn [skip_spaces].
      destruct (is_space a) eqn:Hs; [by rewrite (space_not_slash a Hs) in Ha|].
      by rewrite Ha.
Qed.

Lemma starts_slash_lower s : starts_slash (lower s) = starts_slash s.
Proof. destruct s as [|a s]; [done|]. apply slash_eqb_lower_char. Qed.

Lemma starts_space_lower s : starts_space (lower s) = starts_space s.
Proof. destruct s as [|a s]; [done|]. apply is_space_lower_char. Qed.

Lemma clean_lower s : clean s -> clean (lower s).
Proof.
  induction s as [|a s IH]; [done|]. intros (H1 & H2 & Hc).
  change (lower (String a s)) with (String (lower_char a) (lower s)).
  cbn [clean]. rewrite is_space_lower_char, slash_eqb_lower_char.
  rewrite starts_slash_lower, starts_space_lower. auto.
Qed.

(** C8. Normalizing a normalized term changes nothing. *)
Theorem normalize_term_idempotent term :
  _normalize_term (_normalize_term term) = _normalize_term term.
Proof.
  unfold _normalize_term.
  rewrite (sub_slash_clean (lower _)) by apply clean_lower, sub_slash_is_clean.
  apply lower_idemp.
Qed.

Example normalize_input_output : _normalize_term "Input / Output" = "input/output".
Proof. reflexivity. Qed.

(** * Further properties *)

(** ** Strings *)

Lemma substring_app (w rest : string) :
  String.substring 0 (String.length w) (w +:+ rest) = w.
Proof.
  induction w as [|a w IH]; [by destruct rest|].
  rewrite str_app_cons. simpl. by rewrite IH.
Qed.

Lemma str_all_app p s1 s2 : str_all p (s1 +:+ s2) = str_all p s1 && str_all p s2.
Proof.
  induction s1 as [|a s1 IH]; [done|].
  rewrite str_app_cons. simpl. by rewrite IH, andb_assoc.
Qed.

Lemma str_all_impl (p q : ascii -> bool) s :
  (∀ c, p c = true -> q c = true) -> str_all p s = true -> str_all q s = true.
Proof.
  intros H. induction s as [|a s IH]; [done|]. simpl.
  intros [Ha Hs]%andb_true_iff. by rewrite (H a Ha), IH.
Qed.

Lemma str_all_and p q s :
  str_all p s = true -> str_all q s = true -> str_all (λ c, p c && q c) s = true.
Proof.
  induction s as [|a s IH]; [done|]. simpl.
  intros [Ha Hs]%andb_true_iff [Ha' Hs']%andb_true_iff. by rewrite Ha, Ha', IH.
Qed.

Lemma str_all_map (p q : ascii -> bool) f s :
  (∀ c, p c = true -> q (f c) = true) ->
  str_all p s = true -> str_all q (str_map f s) = true.
Proof.
  intros H. induction s as [|a s IH]; [done|]. simpl.
  intros [Ha Hs]%andb_true_iff. by rewrite (H a Ha), IH.
Qed.

Lemma str_all_drop p s : ∀ n, str_all p s = true -> str_all p (str_drop n s) = true.
Proof.
  induction s as [|a s IH]; intros n; [by destruct n|].
  destruct n; [done|]. simpl. intros [_ Hs]%andb_true_iff. by apply IH.
Qed.

(** ** The matches are strings of the pattern *)

Lemma star_loop_sound r (step : cfg -> list cfg) :
  (∀ c c', In c' (step c) -> ∃ w, snd c = w +:+ snd c' ∧ lang r w) ->
  ∀ fuel c c', In c' (star_loop step fuel c) ->
               ∃ w, snd c = w +:+ snd c' ∧ lang (Many r) w.
Proof.
  intros Hstep. induction fuel as [|fuel IH]; intros c c'; cbn [star_loop].
  - intros [<-|[]]. exists EmptyString. split; [done|constructor].
  - rewrite in_app_iff, in_flat_map. intros [(d & Hd & Hc')|[<-|[]]].
    + apply filter_In in Hd as [Hd _].
      destruct (Hstep _ _ Hd) as (w1 & E1 & H1).
      destruct (IH _ _ Hc') as (w2 & E2 & H2).
      exists (w1 +:+ w2). split; [|by constructor].
      by rewrite E1, E2, str_app_assoc.
    + exists EmptyString. split; [done|constructor].
Qed.

Lemma rmatch_sound r :
  ∀ c c', In c' (rmatch r c) -> ∃ w, snd c = w +:+ snd c' ∧ lang r w.
Proof.
  induction r as [p| | |r1 IH1 r2 IH2|r1 IH1 r2 IH2|r IH]; intros c c'; cbn [rmatch].
  - destruct (snd c) as [|a s] eqn:E; [done|].
    destruct (p a) eqn:Hp; [|done]. intros [<-|[]].
    exists (String a EmptyString). split; [done|by constructor].
  - destruct (at_boundary _ _); [|done]. intros [<-|[]].
    exists EmptyString. split; [done|constructor].
  - intros [<-|[]]. exists EmptyString. split; [done|constructor].
  - rewrite in_flat_map. intros (d & Hd & Hc').
    destruct (IH1 _ _ Hd) as (w1 & E1 & H1).
    destruct (IH2 _ _ Hc') as (w2 & E2 & H2).
    exists (w1 +:+ w2). split; [|by constructor].
    by rewrite E1, E2, str_app_assoc.
  - rewrite in_app_iff. intros [H|H].
    + destruct (IH1 _ _ H) as (w & E & Hw). exists w. split; [done|by apply lang_or_l].
    + destruct (IH2 _ _ H) as (w & E & Hw). exists w. split; [done|by apply lang_or_r].
  - by apply star_loop_sound.
Qed.

Lemma match_at_sound r prev s n :
  match_at r prev s = Some n ->
  ∃ w rest, s = w +:+ rest ∧ lang r w ∧ String.substring 0 n s = w.
Proof.
  unfold match_at. destruct (rmatch r (prev, s)) as [|c' l] eqn:E; [done|].
  intros [= <-].
  destruct (rmatch_sound r (prev, s) c') as (w & Hs & Hw); [rewrite E; by left|].
  simpl in Hs. exists w, (snd c'). split; [done|]. split; [done|].
  rewrite Hs at 1 2. rewrite str_app_length.
  replace (String.length w + String.length (snd c') - String.length (snd c'))
    with (String.length w) by lia.
  apply substring_app.
Qed.

(** Every match listed by [findall] is a string of the pattern and a part of
    the subject. *)
Lemma findall_from_sound r s :
  ∀ prev skip m,
    m ∈ findall_from r prev s skip ->
    lang r m ∧ ∃ pre post, s = pre +:+ m +:+ post.
Proof.
  induction s as [|a s IH]; intros prev skip m.
  - destruct skip; cbn [findall_from]; [|by inversion 1].
    destruct (match_at r prev EmptyString) as [n|] eqn:E; [|by inversion 1].
    intros Hm. apply list_elem_of_singleton in Hm as ->.
    apply match_at_sound in E as (w & rest & Hs & Hw & ->).
    split; [done|]. by exists EmptyString, rest.
  - assert (∀ prev' k, m ∈ findall_from r prev' s k ->
              lang r m ∧ ∃ pre post, String a s = pre +:+ m +:+ post) as Hrec.
    { intros prev' k Hm. destruct (IH _ _ _ Hm) as (Hw & pre & post & ->).
      split; [done|]. by exists (String a pre), post. }
    destruct skip; cbn [findall_from]; [|apply Hrec].
    destruct (match_at r prev (String a s)) as [n|] eqn:E; [|apply Hrec].
    intros [->|Hm]%elem_of_cons; [|by apply (Hrec (Some a) (n - 1))].
    apply match_at_sound in E as (w & rest & Hs & Hw & ->).
    split; [done|]. by exists EmptyString, rest.
Qed.

Lemma findall_sound r s m :
  m ∈ findall r s -> lang r m ∧ ∃ pre post, s = pre +:+ m +:+ post.
Proof. apply findall_from_sound. Qed.

Lemma lang_chars r w : lang r w -> str_all (chars_of r) w = true.
Proof.
  induction 1 as [p a Hp| | |r1 r2 w1 w2 _ IH1 _ IH2|r1 r2 w _ IH|r1 r2 w _ IH
                 |r|r w1 w2 _ IH1 _ IH2]; try done.
  - simpl. by rewrite Hp.
  - rewrite str_all_app. apply andb_true_iff. split.
    + revert IH1. apply str_all_impl. intros c Hc. simpl. by rewrite Hc.
    + revert IH2. apply str_all_impl. intros c Hc. simpl. by rewrite Hc, orb_true_r.
  - revert IH. apply str_all_impl. intros c Hc. simpl. by rewrite Hc.
  - revert IH. apply str_all_impl. intros c Hc. simpl. by rewrite Hc, orb_true_r.
  - rewrite str_all_app. apply andb_true_iff. split; [|done].
    revert IH1. by apply str_all_impl.
Qed.

Lemma lang_cat_inv r1 r2 w :
  lang (Cat r1 r2) w -> ∃ w1 w2, w = w1 +:+ w2 ∧ lang r1 w1 ∧ lang r2 w2.
Proof. inversion 1; subst. eauto. Qed.

Lemma lang_boundary_inv w : lang Boundary w -> w = EmptyString.
Proof. by inversion 1. Qed.

Lemma lang_class_inv p w :
  lang (Class p) w -> ∃ a, w = String a EmptyString ∧ p a = true.
Proof. inversion 1; subst. eauto. Qed.

Lemma lang_many_ind (r : regex) (P : string -> Prop) :
  P EmptyString ->
  (∀ w1 w2, lang r w1 -> lang (Many r) w2 -> P w2 -> P (w1 +:+ w2)) ->
  ∀ w, lang (Many r) w -> P w.
Proof.
  intros Hnil Hcons w H. remember (Many r) as r' eqn:E.
  induction H as [| | | | | | |r0 w1 w2 H1 _ H2 IH2]; try discriminate E; [done|].
  injection E as ->. apply Hcons; auto.
Qed.

Lemma lang_many_class p w : lang (Many (Class p)) w -> str_all p w = true.
Proof. apply (lang_chars (Many (Class p))). Qed.

Lemma lang_plus_class p w :
  lang (Plus (Class p)) w ->
  ∃ a w', w = String a w' ∧ p a = true ∧ str_all p w' = true.
Proof.
  intros (w1 & w2 & -> & (a & -> & Ha)%lang_class_inv & H2%lang_many_class)%lang_cat_inv.
  by exists a, w2.
Qed.

(** ** Terms of the words modes *)

Lemma word_char_not_space a : word_char a = true -> is_space a = false.
Proof. by_cases_on_char a. Qed.

Lemma term_char_lower a :
  (word_char a || is_space a) && negb (is_space a) = true ->
  term_char (lower_char a) = true.
Proof. by_cases_on_char a. Qed.

Lemma good_mono s : good false s -> good true s.
Proof.
  induction s as [|a s IH]; [done|]. cbn [good].
  destruct (Ascii.eqb "/" a); [done|]. destruct (is_space a); [|done].
  intros [_ H]. auto.
Qed.

Lemma good_any b s : good false s -> good b s.
Proof. destruct b; [apply good_mono|done]. Qed.

Lemma good_words u : ∀ b v,
  str_all word_char u = true -> good false v -> good b (u +:+ v).
Proof.
  induction u as [|a u IH]; intros b v; [intros _; apply good_any|].
  cbn [str_all]. intros [Ha Hu]%andb_true_iff Hv.
  rewrite str_app_cons. cbn [good].
  destruct (Ascii.eqb "/" a); [by apply IH|].
  rewrite (word_char_not_space a Ha). by apply IH.
Qed.

Lemma skip_spaces_app_slash x y :
  str_all is_space x = true -> skip_spaces (x +:+ String "/" y) = String "/" y.
Proof.
  induction x as [|a x IH]; [done|]. cbn [str_all].
  intros [Ha Hx]%andb_true_iff. rewrite str_app_cons. cbn [skip_spaces].
  rewrite Ha. by apply IH.
Qed.

Lemma good_spaces_true x y :
  str_all is_space x = true -> good true y -> good true (x +:+ y).
Proof.
  induction x as [|a x IH]; [done|]. cbn [str_all].
  intros [Ha Hx]%andb_true_iff Hy. rewrite str_app_cons. cbn [good].
  rewrite (space_not_slash a Ha), Ha. split; [by left|by apply IH].
Qed.

Lemma good_spaces_slash b x y :
  str_all is_space x = true -> good true y -> good b (x +:+ String "/" y).
Proof.
  induction x as [|a x IH]; [done|]. cbn [str_all].
  intros [Ha Hx]%andb_true_iff Hy. rewrite str_app_cons. cbn [good].
  rewrite (space_not_slash a Ha), Ha. split; [|by apply IH].
  right. by rewrite skip_spaces_app_slash.
Qed.

Lemma lang_group_good b g v :
  lang (Many Space ⋅ Chr "/" ⋅ Many Space ⋅ Plus (Class word_char))%re g ->
  good false v -> good b (g +:+ v).
Proof.
  intros (w123 & u & -> & (w12 & y & -> & (x & sl & -> & Hx & Hsl)%lang_cat_inv
                            & Hy)%lang_cat_inv & Hu)%lang_cat_inv Hv.
  apply lang_many_class in Hx, Hy.
  apply lang_class_inv in Hsl as (a & -> & <-%Ascii.eqb_eq).
  apply lang_plus_class in Hu as (c & u' & -> & Hc & Hu').
  rewrite !str_app_assoc. apply good_spaces_slash; [done|].
  change (String "/" EmptyString +:+ y +:+ String c u' +:+ v)
    with (String "/" (y +:+ String c u' +:+ v)).
  apply good_spaces_true; [done|]. apply good_words; [|done].
  cbn [str_all]. by rewrite Hc, Hu'.
Qed.

Lemma lang_groups_good w v :
  lang (Many (Many Space ⋅ Chr "/" ⋅ Many Space ⋅ Plus (Class word_char)))%re w ->
  good false v -> good false (w +:+ v).
Proof.
  intros H Hv. revert w H. apply lang_many_ind; [done|].
  intros w1 w2 H1 _ IH. rewrite str_app_assoc. by apply lang_group_good.
Qed.

(** A match of the word pattern starts with a character of the class, and its
    spaces are all next to a slash. *)
Lemma lang_word w :
  lang WORD_REGEX w ->
  good false w
  ∧ str_all (λ c, word_char c || is_space c) w = true
  ∧ ∃ a w', w = String a w' ∧ word_char a = true.
Proof.
  intros Hw. split; [|split].
  - apply lang_cat_inv in Hw as (w123 & w4 & -> & Hw & ->%lang_boundary_inv).
    apply lang_cat_inv in Hw as (w12 & gs & -> & Hw & Hgs).
    apply lang_cat_inv in Hw as (w1 & u & -> & ->%lang_boundary_inv & Hu).
    apply lang_plus_class in Hu as (c & u' & -> & Hc & Hu').
    rewrite str_app_nil_r. change (EmptyString +:+ String c u') with (String c u').
    apply good_words; [cbn [str_all]; by rewrite Hc, Hu'|].
    rewrite <- (str_app_nil_r gs). by apply lang_groups_good.
  - apply lang_chars in Hw. revert Hw. apply str_all_impl.
    intros c. by_cases_on_char c.
  - apply lang_cat_inv in Hw as (w123 & w4 & -> & Hw & _).
    apply lang_cat_inv in Hw as (w12 & gs & -> & Hw & _).
    apply lang_cat_inv in Hw as (w1 & u & -> & ->%lang_boundary_inv & Hu).
    apply lang_plus_class in Hu as (c & u' & -> & Hc & _).
    exists c, ((u' +:+ gs) +:+ w4). by split.
Qed.

Lemma good_skip s : good true s -> good false (skip_spaces s).
Proof.
  induction s as [|a s IH]; [done|]. cbn [good skip_spaces].
  destruct (Ascii.eqb "/" a) eqn:Ea.
  - destruct (is_space a) eqn:Es; [by rewrite (space_not_slash a Es) in Ea|].
    intros H. cbn [good]. by rewrite Ea.
  - destruct (is_space a) eqn:Es; [intros [_ H]; auto|].
    intros H. cbn [good]. by rewrite Ea, Es.
Qed.

Lemma good_after_slash b s a s' :
  good b s -> skip_spaces s = String a s' -> Ascii.eqb "/" a = true -> good true s'.
Proof.
  revert b. induction s as [|c s IH]; intros b; [done|]. cbn [good skip_spaces].
  destruct (is_space c) eqn:Es.
  - rewrite (space_not_slash c Es). intros [_ H]. by apply (IH b).
  - intros H [= -> ->] Ea. by rewrite Ea in H.
Qed.

(** The substitution removes every space that is next to a slash. *)
Lemma sub_slash_no_space s :
  good false s -> str_all (λ c, negb (is_space c)) (sub SLASH_REGEX "/" s) = true.
Proof.
  remember (String.length s) as n eqn:Hn. revert s Hn.
  induction n as [n IH] using lt_wf_ind. intros s -> Hs.
  destruct s as [|a s]; [done|]. rewrite sub_slash_cons.
  destruct (slash_match (String a s)) as [rest|] eqn:E.
  - pose proof (slash_match_drop _ _ E) as [Hlen _].
    cbn [str_all]. apply (IH (String.length rest)); [done..|].
    revert E. unfold slash_match.
    destruct (skip_spaces (String a s)) as [|c t] eqn:Et; [done|].
    destruct (Ascii.eqb "/" c) eqn:Ec; [|done]. intros [= <-].
    by apply good_skip, (good_after_slash false (String a s) c t).
  - revert E Hs. unfold slash_match. cbn [skip_spaces good str_all].
    destruct (Ascii.eqb "/" a) eqn:Ea.
    + destruct (is_space a) eqn:Es; [by rewrite (space_not_slash a Es) in Ea|].
      by rewrite Ea.
    + destruct (is_space a) eqn:Es.
      * intros E [[?|Hsl] _]; [done|]. revert E Hsl.
        destruct (skip_spaces s) as [|c t]; [done|]. cbn [starts_slash].
        intros E Hc. by rewrite Hc in E.
      * intros _ Hs. cbn [negb andb]. apply (IH (String.length s)); [|done..].
        simpl. lia.
Qed.

(** The substitution brings in no character but the slash. *)
Lemma sub_slash_chars (p : ascii -> bool) s :
  p "/"%char = true -> str_all p s = true ->
  str_all p (sub SLASH_REGEX "/" s) = true.
Proof.
  intros Hp. remember (String.length s) as n eqn:Hn. revert s Hn.
  induction n as [n IH] using lt_wf_ind. intros s -> Hs.
  destruct s as [|a s]; [done|]. rewrite sub_slash_cons.
  destruct (slash_match (String a s)) as [rest|] eqn:E.
  - pose proof (slash_match_drop _ _ E) as [Hlen Hdrop].
    cbn [str_all]. rewrite Hp. apply (IH (String.length rest)); [done..|].
    rewrite <- Hdrop. by apply str_all_drop.
  - revert Hs. cbn [str_all]. intros [-> Hs]%andb_true_iff.
    apply (IH (String.length s)); [|done..]. simpl. lia.
Qed.

Lemma normalized_word_chars w :
  lang WORD_REGEX w -> str_all term_char (_normalize_term w) = true.
Proof.
  intros (Hgood & Hchars & _)%lang_word. unfold _normalize_term, lower.
  apply (str_all_map (λ c, (word_char c || is_space c) && negb (is_space c)));
    [apply term_char_lower|].
  apply str_all_and; [by apply sub_slash_chars|by apply sub_slash_no_space].
Qed.

Lemma normalized_words_chars text term :
  term ∈ _normalize_term <$> findall WORD_REGEX text ->
  str_all term_char term = true.
Proof.
  intros (w & -> & [Hw _]%findall_sound)%list_elem_of_fmap.
  by apply normalized_word_chars.
Qed.

(** X1. In the two words modes every term consists of the letters a to z,
    hyphens, periods and slashes only: no capital, no space, no digit. *)
Theorem words_terms_characters text mode term :
  mode = "words" ∨ mode = "words_no_filter" ->
  term ∈ _extract_terms text mode ->
  str_all term_char term = true.
Proof.
  intros [-> | ->].
  - rewrite extract_words. intros [_ H]%list_elem_of_filter.
    by apply (normalized_words_chars text).
  - rewrite extract_words_no_filter. apply normalized_words_chars.
Qed.

Lemma words_terms_characters_witness :
  ("words" = "words" ∨ "words" = "words_no_filter")
  ∧ str_all term_char "input/output" = true.
Proof.
  split; [by left|].
  apply (words_terms_characters "Input / Output of data" "words"); [by left|].
  assert (_extract_terms "Input / Output of data" "words" = ["input/output"; "data"])
    as -> by (vm_compute; reflexivity).
  left.
Defined.

(** ** Terms of the phrases mode *)

Lemma phrase_chars_of c :
  chars_of PHRASE_REGEX c = true -> is_alpha c || is_space c = true.
Proof. by_cases_on_char c. Qed.

Lemma phrase_char_lower c :
  is_alpha c || is_space c = true -> phrase_char (lower_char c) = true.
Proof. by_cases_on_char c. Qed.

Lemma is_lower_lower_upper c : is_upper c = true -> is_lower (lower_char c) = true.
Proof. by_cases_on_char c. Qed.

Lemma is_upper_word_char c : is_upper c = true -> word_char c = true.
Proof. by_cases_on_char c. Qed.

Lemma phrase_char_no_slash c : phrase_char c = true -> Ascii.eqb "/" c = false.
Proof. by_cases_on_char c. Qed.

(** A match of the phrase pattern starts with a capital and holds letters and
    spaces only. *)
Lemma lang_phrase w :
  lang PHRASE_REGEX w ->
  str_all (λ c, is_alpha c || is_space c) w = true
  ∧ ∃ a w', w = String a w' ∧ is_upper a = true.
Proof.
  intros Hw. split.
  - apply lang_chars in Hw. revert Hw. apply str_all_impl, phrase_chars_of.
  - apply lang_cat_inv in Hw as (w1234 & w5 & -> & Hw & _).
    apply lang_cat_inv in Hw as (w123 & w4 & -> & Hw & _).
    apply lang_cat_inv in Hw as (w12 & w3 & -> & Hw & _).
    apply lang_cat_inv in Hw as (w1 & cap & -> & ->%lang_boundary_inv & Hcap).
    apply lang_cat_inv in Hcap as (c & tl & -> & (a & -> & Ha)%lang_class_inv & _).
    exists a, (((tl +:+ w3) +:+ w4) +:+ w5). by split.
Qed.

Lemma lowered_phrase text term :
  term ∈ lower <$> findall PHRASE_REGEX text ->
  str_all phrase_char term = true
  ∧ ∃ a rest, term = String a rest ∧ is_lower a = true.
Proof.
  intros (w & -> & [(Hchars & a & w' & -> & Ha)%lang_phrase _]%findall_sound)
    %list_elem_of_fmap.
  split.
  - revert Hchars. apply str_all_map, phrase_char_lower.
  - exists (lower_char a), (lower w'). split; [done|by apply is_lower_lower_upper].
Qed.

(** X2. The phrases mode returns every term of the words mode; a term it
    returns beyond those is a phrase made of the letters a to z and spaces that
    starts with a letter. *)
Theorem phrases_terms text :
  _extract_terms text "words" ⊆ _extract_terms text "phrases"
  ∧ ∀ term, term ∈ _extract_terms text "phrases" ->
      term ∈ _extract_terms text "words"
      ∨ (str_all phrase_char term = true
         ∧ ∃ a rest, term = String a rest ∧ is_lower a = true).
Proof.
  rewrite extract_phrases, extract_words. split.
  - intros term Hterm. rewrite list_of_set_elem, elem_of_app. by right.
  - intros term. rewrite list_of_set_elem, elem_of_app.
    intros [H|H]; [right; by apply (lowered_phrase text)|by left].
Qed.

Lemma phrases_terms_witness :
  "quick" ∈ _extract_terms "The Quick Brown Fox" "phrases".
Proof.
  apply (proj1 (phrases_terms "The Quick Brown Fox")).
  rewrite extract_terms_fox. left.
Defined.

(** ** Terms are in normal form *)

Lemma no_slash_clean s :
  str_all (λ c, negb (Ascii.eqb "/" c)) s = true -> clean s.
Proof.
  induction s as [|a s IH]; [done|]. cbn [str_all clean].
  intros [Ha Hs]%andb_true_iff. apply negb_true_iff in Ha.
  split; [|split; [by rewrite Ha|auto]].
  intros _. destruct s as [|b s]; [done|]. cbn [starts_slash].
  cbn [str_all] in Hs. apply andb_true_iff in Hs as [Hb _].
  by apply negb_true_iff in Hb.
Qed.

(** X3. Every term returned by the extractor, in any mode, is in normal form:
    normalizing it gives it back. *)
Theorem extracted_terms_normalized text mode term :
  term ∈ _extract_terms text mode -> _normalize_term term = term.
Proof.
  assert (∀ t, t ∈ _normalize_term <$> findall WORD_REGEX text ->
               _normalize_term t = t) as Hwords.
  { intros t (w & -> & _)%list_elem_of_fmap. unfold _normalize_term.
    rewrite (sub_slash_clean (lower _)) by apply clean_lower, sub_slash_is_clean.
    apply lower_idemp. }
  apply (extract_cases (λ l, term ∈ l -> _normalize_term term = term)).
  - rewrite extract_words. intros [_ H]%list_elem_of_filter. auto.
  - rewrite extract_words_no_filter. auto.
  - rewrite extract_phrases, list_of_set_elem, elem_of_app.
    intros [H|[_ H]%list_elem_of_filter]; [|auto].
    pose proof (lowered_phrase text term H) as [Hchars _].
    apply list_elem_of_fmap in H as (w & -> & _). unfold _normalize_term.
    rewrite sub_slash_clean; [apply lower_idemp|].
    apply no_slash_clean. revert Hchars. apply str_all_impl.
    intros c Hc. by rewrite (phrase_char_no_slash c Hc).
  - by inversion 1.
Qed.

Lemma extracted_terms_normalized_witness :
  _normalize_term "the quick brown fox" = "the quick brown fox".
Proof.
  apply (extracted_terms_normalized "The Quick Brown Fox" "phrases").
  assert (_extract_terms "The Quick Brown Fox" "phrases"
          = ["quick"; "fox"; "brown"; "the quick brown fox"]) as ->
    by (vm_compute; reflexivity).
  do 3 right. left.
Defined.

(** ** Texts without terms *)

Lemma findall_no_start (r : regex) (p : ascii -> bool) text :
  (∀ w, lang r w -> ∃ a w', w = String a w' ∧ p a = true) ->
  str_all (λ c, negb (p c)) text = true ->
  findall r text = [].
Proof.
  intros Hstart Htext. apply elem_of_nil_inv. intros m Hm.
  apply findall_sound in Hm as [Hw (pre & post & ->)].
  destruct (Hstart m Hw) as (a & w' & -> & Ha).
  rewrite str_all_app, str_app_cons in Htext. cbn [str_all] in Htext.
  rewrite Ha in Htext. simpl in Htext. by rewrite andb_false_r in Htext.
Qed.

(** X4. A text without any letter, hyphen, period or slash (so also the empty
    text) yields no term, whatever the mode. *)
Theorem no_word_character_no_terms text mode :
  str_all (λ c, negb (word_char c)) text = true ->
  _extract_terms text mode = [].
Proof.
  intros Htext.
  assert (findall WORD_REGEX text = []) as Hw.
  { apply (findall_no_start _ word_char); [|done].
    intros w (_ & _ & Hstart)%lang_word. done. }
  assert (findall PHRASE_REGEX text = []) as Hp.
  { apply (findall_no_start _ word_char); [|done].
    intros w (_ & a & w' & -> & Ha)%lang_phrase.
    exists a, w'. split; [done|by apply is_upper_word_char]. }
  apply (extract_cases (λ l, l = [])); [| | |done].
  - by rewrite extract_words, Hw.
  - by rewrite extract_words_no_filter, Hw.
  - rewrite extract_phrases, Hw, Hp. unfold list_of_set. apply elements_empty.
Qed.

Lemma no_word_character_no_terms_witness :
  str_all (λ c, negb (word_char c)) "12 + 34 = 46 (2024)" = true
  ∧ _extract_terms "12 + 34 = 46 (2024)" "phrases" = [].
Proof.
  assert (str_all (λ c, negb (word_char c)) "12 + 34 = 46 (2024)" = true) as H
    by reflexivity.
  split; [exact H|]. exact (no_word_character_no_terms _ "phrases" H).
Defined.

(** ** Normalization *)

Lemma sub_slash_length s :
  String.length (sub SLASH_REGEX "/" s) <= String.length s.
Proof.
  remember (String.length s) as n eqn:Hn. revert s Hn.
  induction n as [n IH] using lt_wf_ind. intros s ->.
  destruct s as [|a s]; [done|]. rewrite sub_slash_cons.
  destruct (slash_match (String a s)) as [rest|] eqn:E.
  - pose proof (slash_match_drop _ _ E) as [Hlen _].
    pose proof (IH (String.length rest) Hlen rest eq_refl). simpl in *. lia.
  - pose proof (IH (String.length s) (Nat.lt_succ_diag_r _) s eq_refl).
    simpl in *. lia.
Qed.

Lemma str_map_length f s : String.length (str_map f s) = String.length s.
Proof. induction s; simpl; congruence. Qed.

Lemma sub_slash_ascii s :
  str_all is_ascii s = true -> str_all is_ascii (sub SLASH_REGEX "/" s) = true.
Proof. intros H. by apply sub_slash_chars. Qed.

Lemma lower_ascii s : str_all is_ascii s = true -> str_all is_ascii (lower s) = true.
Proof.
  intros H. unfold lower. rewrite (str_all_map is_ascii is_ascii); [done| |done].
  intros c. by_cases_on_char c.
Qed.

(** X5. Normalization takes a term of ASCII characters to a term of ASCII
    characters that is not longer.  It leaves no space next to a slash, and a
    term without slash is lowercased and nothing else. *)
Theorem normalize_term_shape term :
  (str_all is_ascii term = true ->
   str_all is_ascii (_normalize_term term) = true
   ∧ String.length (_normalize_term term) <= String.length term)
  ∧ clean (_normalize_term term)
  ∧ (str_all (λ c, negb (Ascii.eqb "/" c)) term = true ->
     _normalize_term term = lower term).
Proof.
  unfold _normalize_term. split; [|split].
  - intros Hascii. split; [by apply lower_ascii, sub_slash_ascii|].
    unfold lower. rewrite str_map_length. apply sub_slash_length.
  - apply clean_lower, sub_slash_is_clean.
  - intros H. by rewrite sub_slash_clean by by apply no_slash_clean.
Qed.

Lemma normalize_term_shape_witness :
  str_all is_ascii "Input / Output" = true
  ∧ str_all is_ascii (_normalize_term "Input / Output") = true
  ∧ String.length (_normalize_term "Input / Output") <= String.length "Input / Output".
Proof.
  assert (str_all is_ascii "Input / Output" = true) as H by reflexivity.
  split; [exact H|]. exact (proj1 (normalize_term_shape "Input / Output") H).
Defined.

(** ** The index of a document *)

(** The pages as [extract_from_pdf] records them. *)
Lemma elem_of_recorded_pages pdf_doc mode page terms :
  (page, terms) ∈ ((λ '(i, text), (Z.of_nat i + 1, _extract_terms text mode)%Z)
                    <$> enumerate pdf_doc)
  ↔ ∃ i text, pdf_doc !! i = Some text ∧ page = (Z.of_nat i + 1)%Z
              ∧ terms = _extract_terms text mode.
Proof.
  unfold enumerate. rewrite list_elem_of_fmap. split.
  - intros ([i text] & [= -> ->] & (i' & text' & [= -> ->] & H)%elem_of_lookup_imap).
    by exists i', text'.
  - intros (i & text & H & -> & ->). exists (i, text). split; [done|].
    apply elem_of_lookup_imap. by exists i, text.
Qed.

Lemma record_all_entry (ps : list (Z * list string)) :
  ∀ tm term,
    is_Some (record_all tm ps !! term)
    ↔ is_Some (tm !! term) ∨ ∃ page terms, (page, terms) ∈ ps ∧ term ∈ terms.
Proof.
  unfold record_all. induction ps as [|[p ts] ps IH]; intros tm term; simpl.
  - split; [auto|]. intros [H|(page & terms & H & _)]; [done|by inversion H].
  - rewrite IH, lookup_record_page. split.
    + intros [H|(page & terms & H1 & H2)].
      * case_decide as Hin; [|by left]. right. exists p, ts. split; [left|done].
      * right. exists page, terms. split; [by right|done].
    + intros [H|(page & terms & H1 & H2)].
      * left. by case_decide.
      * apply elem_of_cons in H1 as [[= -> ->]|H1].
        -- left. by rewrite decide_True by done.
        -- right. eauto.
Qed.

Lemma extract_from_pdf_pages avail pdf_doc mode tm term page :
  extract_from_pdf avail pdf_doc mode = Ok tm ->
  page ∈ default ∅ (tm !! term)
  ↔ ∃ i text, pdf_doc !! i = Some text ∧ page = (Z.of_nat i + 1)%Z
              ∧ term ∈ _extract_terms text mode.
Proof.
  destruct avail; [|done]. rewrite extract_from_pdf_record_all. intros [= <-].
  rewrite record_all_pages, lookup_empty. simpl. split.
  - intros [H|(terms & (i & text & Hi & -> & ->)%elem_of_recorded_pages & Hterm)];
      [by apply not_elem_of_empty in H|]. by exists i, text.
  - intros (i & text & Hi & -> & Hterm). right.
    exists (_extract_terms text mode). split; [|done].
    apply elem_of_recorded_pages. by exists i, text.
Qed.

Lemma extract_from_pdf_entry avail pdf_doc mode tm term :
  extract_from_pdf avail pdf_doc mode = Ok tm ->
  is_Some (tm !! term)
  ↔ ∃ i text, pdf_doc !! i = Some text ∧ term ∈ _extract_terms text mode.
Proof.
  destruct avail; [|done]. rewrite extract_from_pdf_record_all. intros [= <-].
  rewrite record_all_entry, lookup_empty. split.
  - intros [[? H]|(page & terms & (i & text & Hi & -> & ->)%elem_of_recorded_pages
                   & Hterm)]; [done|]. by exists i, text.
  - intros (i & text & Hi & Hterm). right.
    exists (Z.of_nat i + 1)%Z, (_extract_terms text mode). split; [|done].
    apply elem_of_recorded_pages. by exists i, text.
Qed.

(** X6. The index of a document lists a page under a term exactly when the
    text of that page, counted from 1, yields the term; so the pages listed
    lie between 1 and the number of pages, and a term has an entry exactly
    when some page yields it. *)
Theorem index_of_document avail pdf_doc mode tm :
  extract_from_pdf avail pdf_doc mode = Ok tm ->
  ∀ term,
    (∀ page, page ∈ default ∅ (tm !! term)
             ↔ ∃ i text, pdf_doc !! i = Some text ∧ page = (Z.of_nat i + 1)%Z
                         ∧ term ∈ _extract_terms text mode)
    ∧ (∀ page, page ∈ default ∅ (tm !! term) ->
               (1 <= page <= Z.of_nat (length pdf_doc))%Z)
    ∧ (is_Some (tm !! term)
       ↔ ∃ i text, pdf_doc !! i = Some text ∧ term ∈ _extract_terms text mode).
Proof.
  intros Htm term. split; [|split].
  - intros page. by apply (extract_from_pdf_pages avail).
  - intros page Hpage.
    apply (extract_from_pdf_pages avail pdf_doc mode tm term page Htm) in Hpage
      as (i & text & Hi%lookup_lt_Some & -> & _).
    lia.
  - by apply (extract_from_pdf_entry avail).
Qed.

Lemma index_of_document_witness :
  extract_from_pdf true ["The Quick Brown Fox"] "words" = Ok tm_fox
  ∧ ∀ page, page ∈ default ∅ (tm_fox !! "fox") ->
            (1 <= page <= Z.of_nat (length ["The Quick Brown Fox"]))%Z.
Proof.
  split; [exact extract_from_pdf_fox|].
  exact (proj1 (proj2 (index_of_document true _ "words" tm_fox
                         extract_from_pdf_fox "fox"))).
Defined.

(** X7. No entry of the index of a document has an empty page set. *)
Theorem index_entries_nonempty avail pdf_doc mode tm term pages :
  extract_from_pdf avail pdf_doc mode = Ok tm ->
  tm !! term = Some pages -> pages ≠ ∅.
Proof.
  intros Htm Hterm.
  destruct (proj1 (extract_from_pdf_entry avail pdf_doc mode tm term Htm))
    as (i & text & Hi & Hin); [by eexists|].
  assert ((Z.of_nat i + 1)%Z ∈ default ∅ (tm !! term)) as H
    by (apply (extract_from_pdf_pages avail pdf_doc mode); [done|by exists i, text]).
  rewrite Hterm in H. simpl in H. intros ->. by apply not_elem_of_empty in H.
Qed.

Lemma index_entries_nonempty_witness : ({[ 1%Z ]} : gset Z) ≠ ∅.
Proof.
  apply (index_entries_nonempty true ["The Quick Brown Fox"] "words" tm_fox "fox");
    [exact extract_from_pdf_fox|reflexivity].
Defined.

(** X8. Extraction is incremental: the index of a document followed by more
    pages is the index of the document with the further pages recorded under
    the page numbers that follow, and every page already listed stays. *)
Theorem index_incremental pdf_doc more mode tm :
  extract_from_pdf true pdf_doc mode = Ok tm ->
  extract_from_pdf true (pdf_doc ++ more) mode
  = Ok (record_all tm
          ((λ '(i, text),
              (Z.of_nat (length pdf_doc + i) + 1, _extract_terms text mode)%Z)
             <$> enumerate more))
  ∧ ∀ term page,
      page ∈ default ∅ (tm !! term) ->
      page ∈ default ∅ (record_all tm
          ((λ '(i, text),
              (Z.of_nat (length pdf_doc + i) + 1, _extract_terms text mode)%Z)
             <$> enumerate more) !! term).
Proof.
  rewrite !extract_from_pdf_record_all. intros [= <-]. split.
  - f_equal. unfold enumerate, record_all.
    rewrite imap_app, fmap_app, foldl_app. f_equal.
    by rewrite !fmap_imap.
  - intros term page H. apply record_all_pages. by left.
Qed.

Lemma index_incremental_witness :
  extract_from_pdf true (["The Quick Brown Fox"] ++ ["A dog"]) "words"
  = Ok (record_all tm_fox
          ((λ '(i, text),
              (Z.of_nat (length ["The Quick Brown Fox"] + i) + 1,
               _extract_terms text "words")%Z)
             <$> enumerate ["A dog"])).
Proof.
  exact (proj1 (index_incremental ["The Quick Brown Fox"] ["A dog"] "words" tm_fox
                  extract_from_pdf_fox)).
Defined.

Lemma record_all_no_terms (ps : list (Z * list string)) tm :
  Forall (λ p, snd p = []) ps -> record_all tm ps = tm.
Proof.
  unfold record_all. intros H. revert tm.
  induction H as [|[p ts] ps Hp _ IH]; intros tm; [done|].
  simpl in *. subst. apply IH.
Qed.

(** X9. A document none of whose pages yields a term (in particular with an
    unknown mode) gets the empty index, and saving the empty index succeeds and
    writes the header directly followed by the closing bracket. *)
Theorem empty_index pdf_doc mode :
  Forall (λ text, _extract_terms text mode = []) pdf_doc ->
  extract_from_pdf true pdf_doc mode = Ok ∅
  ∧ ∀ old, save_results_as_txt ∅ (World old true None)
           = (Ok tt, World (Some (pieces_of write_header ++ ["]"])) true None).
Proof.
  intros H. split.
  - rewrite extract_from_pdf_record_all. f_equal. apply record_all_no_terms.
    apply Forall_forall. intros [page terms].
    intros (i & text & Hi & -> & ->)%elem_of_recorded_pages. simpl.
    rewrite Forall_forall in H. apply H. by apply list_elem_of_lookup_2 in Hi.
  - intros old.
    assert (grouped_terms ∅ = Ok ∅) as Hg by (vm_compute; reflexivity).
    rewrite (save_results_as_txt_run _ _ old true None Hg).
    rewrite pieces_of_save_body. reflexivity.
Qed.

Lemma empty_index_witness :
  Forall (λ text, _extract_terms text "index" = []) ["The Quick Brown Fox"]
  ∧ extract_from_pdf true ["The Quick Brown Fox"] "index" = Ok ∅.
Proof.
  assert (Forall (λ text, _extract_terms text "index" = []) ["The Quick Brown Fox"])
    as H by (repeat constructor).
  split; [exact H|]. exact (proj1 (empty_index _ "index" H)).
Defined.

(** ** The buckets *)

Lemma StronglySorted_filter {A} (R : relation A) (P : A -> Prop)
  `{∀ x, Decision (P x)} (l : list A) :
  StronglySorted R l -> StronglySorted R (filter P l).
Proof.
  induction 1 as [|x l Hl IH Hx]; [constructor|].
  rewrite filter_cons. case_decide; [|done].
  constructor; [done|]. rewrite Forall_forall in Hx |- *.
  intros y [_ Hy]%list_elem_of_filter. auto.
Qed.

Lemma sorted_keys_strict {V} (m : gmap string V) :
  StronglySorted (strict String.le) (sorted (keys m)).
Proof.
  apply strictly_sorted.
  - apply StronglySorted_merge_sort; apply _.
  - unfold sorted, keys. rewrite merge_sort_Permutation. apply NoDup_fst_map_to_list.
Qed.

Lemma flat_map_permutation {A B} (f : A -> list B) (l1 l2 : list A) :
  l1 ≡ₚ l2 -> flat_map f l1 ≡ₚ flat_map f l2.
Proof.
  induction 1 as [|x l l' _ IH|x y l|l1 l2 l3 _ IH1 _ IH2]; simpl.
  - done.
  - by rewrite IH.
  - rewrite !app_assoc. f_equiv. apply Permutation_app_comm.
  - by rewrite IH1.
Qed.

Lemma flat_map_split {A B} (f g : A -> list B) (l : list A) :
  flat_map (λ x, f x ++ g x) l ≡ₚ flat_map f l ++ flat_map g l.
Proof.
  induction l as [|x l IH]; [done|]. simpl. rewrite IH.
  rewrite <- !app_assoc. f_equiv. rewrite !app_assoc. f_equiv.
  apply Permutation_app_comm.
Qed.

Lemma flat_map_select (k0 x : string) (K : list string) :
  NoDup K -> k0 ∈ K ->
  flat_map (λ k, if decide (k0 = k) then [x] else []) K = [x].
Proof.
  induction 1 as [|k K Hk Hnd IH]; [by inversion 1|].
  simpl. intros [->|Hin]%elem_of_cons.
  - rewrite decide_True by done. simpl. clear IH.
    induction K as [|k' K IH]; [done|]. simpl.
    apply not_elem_of_cons in Hk as [Hne Hk].
    rewrite decide_False by done. apply NoDup_cons in Hnd as [_ Hnd]. auto.
  - rewrite decide_False by (intros ->; done). simpl. auto.
Qed.

(** Listing the buckets one after the other lists every term once. *)
Lemma buckets_cover (L K : list string) :
  NoDup K -> (∀ x, x ∈ L -> bucket_key x ∈ K) ->
  flat_map (λ k, filter (λ t, bucket_key t = k) L) K ≡ₚ L.
Proof.
  intros HK. induction L as [|x L IH]; intros HL.
  - clear. induction K as [|k K IHK]; [done|]. simpl. apply IHK.
  - rewrite (flat_map_ext _
               (λ k, (if decide (bucket_key x = k) then [x] else [])
                     ++ filter (λ t, bucket_key t = k) L)).
    2:{ intros k. rewrite filter_cons. by case_decide. }
    rewrite flat_map_split, flat_map_select; [|done|apply HL; left].
    simpl. f_equiv. apply IH. intros y Hy. apply HL. by right.
Qed.

Lemma remove_permutation (x : string) (l : list string) :
  x ∈ l -> remove x l ++ [x] ≡ₚ l.
Proof.
  induction l as [|y l IH]; [by inversion 1|]. simpl.
  destruct (String.eqb_spec y x) as [->|Hne].
  - intros _. by rewrite Permutation_app_comm.
  - intros [->|Hin]%elem_of_cons; [done|]. simpl. by rewrite IH.
Qed.

Lemma sorted_letters_permutation (grouped : gmap string (list string)) :
  sorted_letters grouped ≡ₚ keys grouped.
Proof.
  unfold sorted_letters. case_bool_decide as H.
  - rewrite remove_permutation by done. apply merge_sort_Permutation.
  - apply merge_sort_Permutation.
Qed.

(** X10. The grouping puts every term of the index in exactly one bucket: the
    one of the uppercase form of its first character when this form passes
    the test for a letter, and else #.  A bucket lists its terms in ascending
    order, and the buckets, in the order in which they are rendered, list
    every term of the index exactly once.  The bucket of a term that begins
    with an ASCII character is the capital of this character if it is a
    letter and # if not; the bucket of a term that begins with another
    character is # unless the character is one of the table, whose
    uppercase form is then the key. *)
Theorem buckets_partition tm grouped :
  grouped_terms tm = Ok grouped ->
  (∀ k term, term ∈ default [] (grouped !! k)
             ↔ is_Some (tm !! term) ∧ bucket_key term = k)
  ∧ (∀ k, StronglySorted (strict String.le) (default [] (grouped !! k)))
  ∧ flat_map (λ k, default [] (grouped !! k)) (sorted_letters grouped) ≡ₚ keys tm
  ∧ (∀ c rest, is_ascii c = true ->
       bucket_key (String c rest)
       = if is_alpha c then String (upper_char c) EmptyString else "#")
  ∧ (∀ c rest, is_ascii c = false ->
       first_char (String c rest) ∉ SPECIAL_UPPER.*1 ->
       bucket_key (String c rest) = "#")
  ∧ (∀ c u rest, (c, u) ∈ SPECIAL_UPPER -> bucket_key (c +:+ rest) = u).
Proof.
  intros Hg. split; [|split; [|split; [|split; [|split]]]].
  - intros k term. rewrite (grouped_terms_bucket tm grouped) by done.
    rewrite list_elem_of_filter, elem_of_sorted, elem_of_keys. tauto.
  - intros k. rewrite (grouped_terms_bucket tm grouped) by done.
    apply StronglySorted_filter, sorted_keys_strict.
  - rewrite (flat_map_permutation _ _ _ (sorted_letters_permutation grouped)).
    rewrite (flat_map_ext _ (λ k, filter (λ t, bucket_key t = k) (sorted (keys tm))))
      by (intros k; by apply grouped_terms_bucket).
    rewrite buckets_cover; [apply merge_sort_Permutation|apply NoDup_fst_map_to_list|].
    intros x Hx. rewrite elem_of_keys, <- elem_of_dom.
    rewrite (grouped_terms_dom tm grouped) by done.
    exists x. split; [|done]. by rewrite <- elem_of_keys, <- elem_of_sorted.
  - apply bucket_key_ascii.
  - apply bucket_key_other.
  - apply bucket_key_special.
Qed.

Lemma buckets_partition_witness :
  grouped_terms tm_3d = Ok grouped_3d
  ∧ flat_map (λ k, default [] (grouped_3d !! k)) (sorted_letters grouped_3d)
    ≡ₚ keys tm_3d.
Proof.
  split; [exact grouped_terms_3d|].
  exact (proj1 (proj2 (proj2 (buckets_partition tm_3d grouped_3d grouped_terms_3d)))).
Defined.

Lemma group_loop_raise terms :
  EmptyString ∈ terms -> ∀ grouped, group_loop grouped terms = Raise IndexError.
Proof.
  induction terms as [|term terms IH]; [by inversion 1|].
  intros Hin grouped. simpl. destruct term as [|c rest]; [done|].
  rewrite group_term_bucket. apply IH.
  apply elem_of_cons in Hin as [?|?]; done.
Qed.

(** X11. The grouping fails exactly when the empty string is a term of the
    index; then [save_results_as_txt] raises the index error before it opens
    the file, which is left as it was. *)
Theorem empty_term_index_error tm :
  (grouped_terms tm = Raise IndexError ↔ is_Some (tm !! EmptyString))
  ∧ (is_Some (tm !! EmptyString) ->
     ∀ w, save_results_as_txt tm w = (Raise IndexError, w)).
Proof.
  assert (is_Some (tm !! EmptyString) -> grouped_terms tm = Raise IndexError) as Hraise.
  { intros H. apply group_loop_raise. by rewrite elem_of_sorted, elem_of_keys. }
  split; [split; [|done]|].
  - intros Hg. destruct (decide (is_Some (tm !! EmptyString))) as [|Hno]; [done|].
    destruct (group_loop_ok (sorted (keys tm))) with (grouped := (∅ : gmap string (list string)))
      as [g Hok].
    + apply Forall_forall. intros term. rewrite elem_of_sorted, elem_of_keys.
      intros H ->. done.
    + unfold grouped_terms in Hg. by rewrite Hok in Hg.
  - intros H w. by apply save_results_as_txt_raise, Hraise.
Qed.

Lemma empty_term_index_error_witness :
  is_Some (({[ EmptyString := {[ 1%Z ]} ]} : gmap string (gset Z)) !! EmptyString)
  ∧ ∀ w, save_results_as_txt {[ EmptyString := {[ 1%Z ]} ]} w = (Raise IndexError, w).
Proof.
  assert (is_Some (({[ EmptyString := {[ 1%Z ]} ]} : gmap string (gset Z))
                     !! EmptyString)) as H by (by eexists).
  split; [exact H|]. exact (proj2 (empty_term_index_error _) H).
Defined.

(** ** The line of a term *)

Lemma sorted_int_spec (pages : gset Z) :
  StronglySorted Z.lt (sorted_int (elements pages))
  ∧ ∀ p, p ∈ sorted_int (elements pages) ↔ p ∈ pages.
Proof.
  unfold sorted_int. split.
  - assert (NoDup (merge_sort Z.le (elements pages))) as Hnd
      by (rewrite merge_sort_Permutation; apply NoDup_elements).
    assert (StronglySorted Z.le (merge_sort Z.le (elements pages))) as Hs
      by (apply StronglySorted_merge_sort; apply _).
    induction Hs as [|x l Hl IH Hx]; [constructor|].
    apply NoDup_cons in Hnd as [Hnin Hnd]. constructor; [auto|].
    rewrite Forall_forall in Hx |- *. intros y Hy.
    assert (x ≠ y) by (intros ->; done). specialize (Hx y Hy). lia.
  - intros p. by rewrite merge_sort_Permutation, elem_of_elements.
Qed.

Lemma pieces_of_write s : pieces_of (write s) = [s].
Proof. apply emits_pieces, emits_write. Qed.

(** X12. A term is rendered as one line: its label in bold with every double
    quote escaped, a colon, its page numbers in strictly ascending order
    joined by a comma and a space, a backslash and a line end. *)
Theorem term_line tm term :
  ∃ numbers,
    StronglySorted Z.lt numbers
    ∧ (∀ p, p ∈ numbers ↔ p ∈ default ∅ (tm !! term))
    ∧ pieces_of (write_term tm term)
      = ["  #text(weight: " +:+ dq +:+ "bold" +:+ dq +:+ ")["
         +:+ replace "034"%char (bs +:+ dq) term
         +:+ "]: " +:+ join ", " (str <$> numbers) +:+ bs +:+ nl].
Proof.
  exists (sorted_int (elements (default ∅ (tm !! term)))).
  destruct (sorted_int_spec (default ∅ (tm !! term))) as [Hs Hin].
  split; [done|]. split; [done|]. unfold write_term. apply pieces_of_write.
Qed.

Lemma replace_no_quote term :
  str_all (λ c, negb (Ascii.eqb c "034"%char)) term = true ->
  replace "034"%char (bs +:+ dq) term = term.
Proof.
  induction term as [|c term IH]; [done|]. cbn [str_all replace].
  intros [Hc Ht]%andb_true_iff. apply negb_true_iff in Hc. rewrite Hc.
  by rewrite IH.
Qed.

(** X13. Escaping leaves a term without double quote as it is, and in the
    escaped term every double quote directly follows a backslash. *)
Theorem escaping_quotes term :
  (str_all (λ c, negb (Ascii.eqb c "034"%char)) term = true ->
   replace "034"%char (bs +:+ dq) term = term)
  ∧ ∀ i, String.get i (replace "034"%char (bs +:+ dq) term) = Some "034"%char ->
         ∃ j, i = S j
              ∧ String.get j (replace "034"%char (bs +:+ dq) term) = Some "092"%char.
Proof.
  split; [apply replace_no_quote|].
  induction term as [|c term IH]; intros i; [by destruct i|].
  cbn [replace]. destruct (Ascii.eqb c "034") eqn:Hc.
  - change (bs +:+ dq +:+ replace "034" (bs +:+ dq) term)
      with (String "092" (String "034" (replace "034" (bs +:+ dq) term))).
    destruct i as [|[|i]]; [done|by exists 0|].
    cbn [String.get]. intros (j & -> & Hj)%IH. by exists (S (S j)).
  - destruct i as [|i]; cbn [String.get].
    + intros [= ->]. done.
    + intros (j & -> & Hj)%IH. by exists (S j).
Qed.

Lemma escaping_quotes_witness :
  str_all (λ c, negb (Ascii.eqb c "034"%char)) "input/output" = true
  ∧ replace "034"%char (bs +:+ dq) "input/output" = "input/output".
Proof.
  assert (str_all (λ c, negb (Ascii.eqb c "034"%char)) "input/output" = true) as H
    by reflexivity.
  split; [exact H|]. exact (proj1 (escaping_quotes "input/output") H).
Defined.

(** ** The terms of the index of a document *)

Lemma term_or_space_no_quote c :
  term_char c || is_space c = true -> negb (Ascii.eqb c "034"%char) = true.
Proof. by_cases_on_char c. Qed.

Lemma is_lower_term_char c : is_lower c = true -> term_char c = true.
Proof. by_cases_on_char c. Qed.

Lemma extract_terms_chars text mode term :
  term ∈ _extract_terms text mode ->
  str_all (λ c, term_char c || is_space c) term = true
  ∧ ∃ a rest, term = String a rest ∧ term_char a = true.
Proof.
  assert (∀ m, m = "words" ∨ m = "words_no_filter" ->
            term ∈ _extract_terms text m ->
            str_all (λ c, term_char c || is_space c) term = true
            ∧ ∃ a rest, term = String a rest ∧ term_char a = true) as Hwords.
  { intros m Hm Hin.
    assert (str_all term_char term = true) as Hchars.
    { destruct Hm as [-> | ->].
      - rewrite extract_words in Hin. apply list_elem_of_filter in Hin as [_ Hin].
        by apply (normalized_words_chars text).
      - rewrite extract_words_no_filter in Hin.
        by apply (normalized_words_chars text). }
    split; [revert Hchars; apply str_all_impl; by intros c ->|].
    destruct term as [|a rest]; [by apply extract_terms_nonempty in Hin|].
    exists a, rest. split; [done|]. by apply andb_true_iff in Hchars as [? _]. }
  apply (extract_cases
           (λ l, term ∈ l ->
                 str_all (λ c, term_char c || is_space c) term = true
                 ∧ ∃ a rest, term = String a rest ∧ term_char a = true)).
  - apply Hwords. by left.
  - apply Hwords. by right.
  - rewrite extract_phrases, list_of_set_elem, elem_of_app.
    intros [H|H].
    + apply lowered_phrase in H as (Hchars & a & rest & -> & Ha).
      split; [|exists a, rest; split; [done|by apply is_lower_term_char]].
      revert Hchars. apply str_all_impl. intros c. by_cases_on_char c.
    + apply Hwords with (m := "words"); [by left|by rewrite extract_words].
  - by inversion 1.
Qed.

(** X14. Every term of the index of a document is made of the letters a to z,
    hyphens, periods, slashes and spaces and does not start with a space; so
    no term holds a double quote and escaping changes none of them. *)
Theorem index_terms_plain avail pdf_doc mode tm term :
  extract_from_pdf avail pdf_doc mode = Ok tm ->
  is_Some (tm !! term) ->
  str_all (λ c, term_char c || is_space c) term = true
  ∧ (∃ a rest, term = String a rest ∧ term_char a = true)
  ∧ replace "034"%char (bs +:+ dq) term = term.
Proof.
  intros Htm Hterm.
  apply (extract_from_pdf_entry avail pdf_doc mode tm term Htm) in Hterm
    as (i & text & _ & Hin).
  destruct (extract_terms_chars text mode term Hin) as [Hchars Hstart].
  split; [done|]. split; [done|].
  apply replace_no_quote.
  revert Hchars. apply str_all_impl, term_or_space_no_quote.
Qed.

Lemma index_terms_plain_witness :
  extract_from_pdf true ["The Quick Brown Fox"] "words" = Ok tm_fox
  ∧ is_Some (tm_fox !! "fox")
  ∧ replace "034"%char (bs +:+ dq) "fox" = "fox".
Proof.
  assert (is_Some (tm_fox !! "fox")) as H by (by eexists).
  split; [exact extract_from_pdf_fox|]. split; [exact H|].
  exact (proj2 (proj2 (index_terms_plain true _ "words" tm_fox "fox"
                         extract_from_pdf_fox H))).
Defined.

(** ** Paths *)

Example splitext_examples :
  splitext Posix "/home/me/report.v2.DOCX" = ("/home/me/report.v2", ".DOCX")
  ∧ splitext Posix "/home/me.d/.hidden" = ("/home/me.d/.hidden", EmptyString)
  ∧ splitext Posix "/home/me.d/notes" = ("/home/me.d/notes", EmptyString)
  ∧ splitext Posix "...pdf" = ("...pdf", EmptyString)
  ∧ splitext Windows ("C:" +:+ bs +:+ "docs.old" +:+ bs +:+ "index.pdf")
    = ("C:" +:+ bs +:+ "docs.old" +:+ bs +:+ "index", ".pdf").
Proof. repeat split; vm_compute; reflexivity. Qed.

Lemma rfind_bounds p s : (-1 <= rfind p s < Z.of_nat (String.length s))%Z.
Proof.
  induction s as [|a s IH]; [simpl; lia|]. cbn [rfind String.length].
  destruct (0 <=? rfind p s)%Z eqn:E; [apply Z.leb_le in E; lia|].
  destruct (p a); lia.
Qed.

Lemma rfind_none p s : str_all (λ c, negb (p c)) s = true -> rfind p s = (-1)%Z.
Proof.
  induction s as [|a s IH]; [done|]. cbn [str_all rfind].
  intros [Ha Hs]%andb_true_iff. apply negb_true_iff in Ha. rewrite IH by done.
  simpl. by rewrite Ha.
Qed.

Lemma rfind_app p s1 s2 :
  rfind p (s1 +:+ s2)
  = if (0 <=? rfind p s2)%Z then (Z.of_nat (String.length s1) + rfind p s2)%Z
    else rfind p s1.
Proof.
  induction s1 as [|a s1 IH].
  - change (EmptyString +:+ s2) with s2. pose proof (rfind_bounds p s2).
    destruct (0 <=? rfind p s2)%Z eqn:E; [simpl; lia|].
    apply Z.leb_gt in E. simpl. lia.
  - rewrite str_app_cons. cbn [rfind String.length]. rewrite IH.
    pose proof (rfind_bounds p s2).
    destruct (0 <=? rfind p s2)%Z eqn:E; [|done].
    apply Z.leb_le in E.
    rewrite (proj2 (Z.leb_le 0 _)) by lia. lia.
Qed.

Lemma not_only_dots_true p k c :
  String.get k p = Some c -> Ascii.eqb c "."%char = false ->
  ∀ n i, i <= k < i + n -> not_only_dots p i n = true.
Proof.
  intros Hk Hc. induction n as [|n IH]; intros i Hi; [lia|].
  cbn [not_only_dots]. destruct (String.get i p) as [c'|] eqn:Ei; [|done].
  destruct (Ascii.eqb c' ".") eqn:Ec'; [|done].
  apply IH. destruct (decide (i = k)) as [->|]; [|lia]. congruence.
Qed.

Lemma str_drop_app s rest : str_drop (String.length s) (s +:+ rest) = rest.
Proof. induction s as [|a s IH]; [apply str_drop_0|]. by rewrite str_app_cons. Qed.

Lemma str_all_false_get p s :
  str_all p s = false -> ∃ j c, String.get j s = Some c ∧ p c = false.
Proof.
  induction s as [|a s IH]; [done|]. cbn [str_all].
  destruct (p a) eqn:Ha; [|by exists 0, a].
  intros (j & c & Hj & Hc)%IH. by exists (S j), c.
Qed.

Lemma get_app_r s1 s2 j :
  String.get (String.length s1 + j) (s1 +:+ s2) = String.get j s2.
Proof.
  rewrite Nat.add_comm. symmetry. apply String.append_correct2.
Qed.

Lemma get_app_l s1 s2 j c :
  String.get j s1 = Some c -> String.get j (s1 +:+ s2) = Some c.
Proof.
  revert j. induction s1 as [|a s1 IH]; intros j; [by destruct j|].
  rewrite str_app_cons. destruct j; [done|]. apply IH.
Qed.

Lemma is_sep_dot pf : is_sep pf "."%char = false.
Proof. by destruct pf. Qed.

(** The extension of a path is what follows the last period of its last
    component, when this component is not made of periods up to there. *)
Lemma splitext_extension pf dir name e :
  str_all (λ c, negb (is_sep pf c)) name = true ->
  str_all (λ c, Ascii.eqb c "."%char) name = false ->
  str_all (λ c, negb (is_sep pf c) && negb (Ascii.eqb "."%char c)) e = true ->
  splitext pf (dir +:+ name +:+ "." +:+ e) = (dir +:+ name, "." +:+ e).
Proof.
  intros Hname Hdots He. unfold splitext.
  assert (rfind (Ascii.eqb ".") (dir +:+ name +:+ "." +:+ e)
          = Z.of_nat (String.length (dir +:+ name))) as Hdot.
  { rewrite <- str_app_assoc, rfind_app.
    change ("." +:+ e) with (String "." e). cbn [rfind].
    rewrite rfind_none; [simpl; lia|].
    revert He. apply str_all_impl. by intros c [_ ?]%andb_true_iff. }
  assert (rfind (is_sep pf) (dir +:+ name +:+ "." +:+ e) = rfind (is_sep pf) dir)
    as Hsep.
  { rewrite rfind_app, rfind_none; [done|].
    rewrite str_all_app, Hname. change ("." +:+ e) with (String "." e).
    cbn [str_all]. rewrite is_sep_dot. simpl.
    revert He. apply str_all_impl. by intros c [? _]%andb_true_iff. }
  rewrite Hdot, Hsep. pose proof (rfind_bounds (is_sep pf) dir) as Hb.
  rewrite str_app_length.
  rewrite (proj2 (Z.ltb_lt _ _)) by lia.
  apply str_all_false_get in Hdots as (j & c & Hj & Hc).
  rewrite (not_only_dots_true _ (String.length dir + j) c).
  - rewrite Nat2Z.id, <- str_app_length, <- str_app_assoc.
    by rewrite substring_app, str_drop_app.
  - rewrite get_app_r. by apply get_app_l.
  - done.
  - assert (j < String.length name).
    { clear -Hj. revert j Hj. induction name as [|a name IH]; intros [|j]; simpl;
        try done; [lia|]. intros H%IH. lia. }
    lia.
Qed.

(** ** Documents on disk *)

Section DocumentsFacts.
Context {disk error : Type}.
Variable fitz_open : string -> disk -> error + list string.
Variable convert : string -> string -> disk -> option error * disk.
Variable path_exists : string -> disk -> bool.
Variable os_remove : string -> disk -> option error * disk.
Variable pf : platform.

Lemma temp_path_nonempty root :
  String.eqb (root +:+ "_temp.pdf") EmptyString = false.
Proof. apply String.eqb_neq. by destruct root. Qed.

(** X16. Without the libraries [extract_from_docx] raises the import error and
    touches no file.  With them, and an [os.remove] that removes the files
    that exist, no file is left at the temporary path afterwards, whether
    the conversion and the extraction succeed or fail and also when a file
    was there before; the outcome is the failure of the conversion or else
    that of [extract_from_pdf] on the converted document. *)
Theorem extract_from_docx_cleans_up avail docx_path mode d :
  (∀ p d0, path_exists p d0 = true ->
           ∃ d1, os_remove p d0 = (None, d1) ∧ path_exists p d1 = false) ->
  let temp_pdf_path := fst (splitext pf docx_path) +:+ "_temp.pdf" in
  let run :=
    extract_from_docx fitz_open convert path_exists os_remove pf avail docx_path mode d in
  (avail = false -> run = (inl (Backend ImportError), d))
  ∧ (avail = true ->
     path_exists temp_pdf_path (snd run) = false
     ∧ fst run
       = match convert docx_path temp_pdf_path d with
         | (Some e, _) => inl (Library e)
         | (None, d') => extract_from_pdf_path fitz_open true temp_pdf_path mode d'
         end).
Proof.
  intros Hrm temp_pdf_path run. subst run. unfold extract_from_docx.
  fold temp_pdf_path. split; [by intros ->|]. intros ->. cbn [negb].
  assert (∀ A (r : failure error + A) d',
            path_exists temp_pdf_path (snd (remove_temp path_exists os_remove
                                               temp_pdf_path r d')) = false
            ∧ fst (remove_temp path_exists os_remove temp_pdf_path r d') = r)
    as Hfinally.
  { intros A r d'. unfold remove_temp. subst temp_pdf_path.
    rewrite temp_path_nonempty. cbn [negb andb].
    destruct (path_exists _ d') eqn:E; [|done].
    by destruct (Hrm _ _ E) as (d1 & -> & ?). }
  destruct (convert docx_path temp_pdf_path d) as [[e|] d']; apply Hfinally.
Qed.

(** X17. The kind of a file is decided by its last extension whatever its
    letter case: a path ending in .docx is converted, through the temporary
    file named after it, and read; a path ending in .pdf is read as it is;
    with any other extension the value error reports the extension and no
    file is touched. *)
Theorem backend_task_dispatch avail dir name e mode d :
  str_all (λ c, negb (is_sep pf c)) name = true ->
  str_all (λ c, Ascii.eqb c "."%char) name = false ->
  str_all (λ c, negb (is_sep pf c) && negb (Ascii.eqb "."%char c)) e = true ->
  let file_path := dir +:+ name +:+ "." +:+ e in
  let run :=
    _run_backend_task fitz_open convert path_exists os_remove pf avail file_path mode d in
  (lower e = "docx" ->
   run = extract_from_docx fitz_open convert path_exists os_remove pf avail
           file_path mode d
   ∧ fst (splitext pf file_path) +:+ "_temp.pdf" = dir +:+ name +:+ "_temp.pdf")
  ∧ (lower e = "pdf" ->
     run = (extract_from_pdf_path fitz_open avail file_path mode d, d))
  ∧ (lower e ≠ "docx" -> lower e ≠ "pdf" ->
     run = (inl (ValueError ("." +:+ e)), d)).
Proof.
  intros Hname Hdots He file_path run. subst run. unfold _run_backend_task.
  subst file_path. rewrite (splitext_extension pf dir name e) by done.
  cbn [fst snd].
  change (lower ("." +:+ e)) with (String "." (lower e)).
  split; [|split].
  - intros ->. split; [done|]. by rewrite str_app_assoc.
  - by intros ->.
  - intros H1 H2.
    rewrite (proj2 (String.eqb_neq _ _)) by (intros [= ?]; done).
    by rewrite (proj2 (String.eqb_neq _ _)) by (intros [= ?]; done).
Qed.

End DocumentsFacts.

Section FirstVariantFacts.
Context {disk error : Type}.
Variable fitz_pages : string -> disk -> error + list (error + string).
Variable held : string -> disk -> disk.
Variable convert : string -> string -> disk -> option error * disk.
Variable path_exists : string -> disk -> bool.
Variable os_remove : string -> disk -> option error * disk.
Variable pf : platform.

(** The loop of the first variant, where the pages can all be read, is the
    loop of [extract_from_pdf]. *)
Lemma page_loop_texts mode (pages : list (error + string)) texts :
  page_texts pages = inr texts ->
  ∀ i tm,
    page_loop mode pages i tm
    = inr (foldl (λ term_map '(j, text),
                    record_page term_map (Z.of_nat j + 1) (_extract_terms text mode))
                 tm (imap (pair ∘ (λ j, i + j)) texts)).
Proof.
  revert texts. induction pages as [|[e|text] pages IH]; intros texts; simpl.
  - by intros [= <-].
  - done.
  - destruct (page_texts pages) as [e|texts'] eqn:E; [done|]. intros [= <-] i tm.
    rewrite (IH texts' eq_refl). cbn [imap foldl]. simpl.
    rewrite Nat.add_0_r. do 2 f_equal. apply imap_ext. intros j x _. simpl.
    f_equal. lia.
Qed.

Lemma page_loop_error mode (pages : list (error + string)) e :
  page_texts pages = inl e -> ∀ i tm, page_loop mode pages i tm = inl e.
Proof.
  induction pages as [|[e'|text] pages IH]; simpl; [done|by intros [= ->]|].
  destruct (page_texts pages) as [e'|texts']; [|done]. intros [= ->] i tm.
  by apply IH.
Qed.

(** X15. The two variants of [extract_from_docx] agree, in the outcome and in
    the files they leave, as long as every page of the converted document can
    be read, and also when the conversion fails or the document cannot be
    opened.  When a page cannot be read, both end with the clean-up of the
    temporary file, entered with the error of that page; but the 2.0 variant
    has closed the document by then, and the first variant has not. *)
Theorem extract_from_docx_variants avail docx_path mode d :
  let temp_pdf_path := fst (splitext pf docx_path) +:+ "_temp.pdf" in
  let v1 :=
    extract_from_docx_v1 fitz_pages held convert path_exists os_remove pf avail
      docx_path mode d in
  let v2 :=
    extract_from_docx (read_document fitz_pages) convert path_exists os_remove pf
      avail docx_path mode d in
  (∀ d' pages e,
     avail = true ->
     convert docx_path temp_pdf_path d = (None, d') ->
     fitz_pages temp_pdf_path d' = inr pages ->
     page_texts pages = inl e ->
     v1 = remove_temp path_exists os_remove temp_pdf_path (inl (Library e))
            (held temp_pdf_path d')
     ∧ v2 = remove_temp path_exists os_remove temp_pdf_path (inl (Library e)) d')
  ∧ ((∀ d' pages,
        convert docx_path temp_pdf_path d = (None, d') ->
        fitz_pages temp_pdf_path d' = inr pages ->
        ∃ texts, page_texts pages = inr texts) ->
     v1 = v2).
Proof.
  intros temp_pdf_path v1 v2. subst v1 v2.
  unfold extract_from_docx_v1, extract_from_docx, extract_from_pdf_path,
    read_document, extract_from_pdf.
  fold temp_pdf_path. split.
  - intros d' pages e -> Hconv Hopen Hpages. cbn [negb].
    rewrite Hconv, Hopen, Hpages. by rewrite (page_loop_error mode pages e).
  - intros Hread. destruct avail; [|done]. cbn [negb].
    destruct (convert docx_path temp_pdf_path d) as [[e|] d'] eqn:Hconv; [done|].
    destruct (fitz_pages temp_pdf_path d') as [e|pages] eqn:Hopen; [done|].
    destruct (Hread d' pages eq_refl Hopen) as [texts Htexts].
    by rewrite Htexts, (page_loop_texts mode pages texts Htexts).
Qed.

End FirstVariantFacts.

Lemma extract_from_docx_variants_witness :
  extract_from_docx_v1 locking_pages locking_held locking_convert locking_exists
    locking_remove Windows true "C:/docs/pets.docx" "words" damaged_disk
  = remove_temp locking_exists locking_remove "C:/docs/pets_temp.pdf"
      (inl (Library "page damaged"))
      (locking_held "C:/docs/pets_temp.pdf"
         (snd (locking_convert "C:/docs/pets.docx" "C:/docs/pets_temp.pdf"
                 damaged_disk)))
  ∧ extract_from_docx (read_document locking_pages) locking_convert locking_exists
      locking_remove Windows true "C:/docs/pets.docx" "words" damaged_disk
    = remove_temp locking_exists locking_remove "C:/docs/pets_temp.pdf"
        (inl (Library "page damaged"))
        (snd (locking_convert "C:/docs/pets.docx" "C:/docs/pets_temp.pdf"
                damaged_disk)).
Proof.
  apply (proj1 (extract_from_docx_variants locking_pages locking_held locking_convert
                  locking_exists locking_remove Windows true "C:/docs/pets.docx"
                  "words" damaged_disk)
           _ [inr "The cat"; inl "page damaged"]); reflexivity.
Defined.

(** On a file system that does not remove open files the variants differ when
    a page cannot be read: the first variant fails to remove the temporary
    file, reports that failure instead of the page's, and leaves the file
    behind; the 2.0 variant reports the page and removes the file. *)
Example extract_from_docx_damaged_page :
  extract_from_docx_v1 locking_pages locking_held locking_convert locking_exists
    locking_remove Windows true "C:/docs/pets.docx" "words" damaged_disk
  = (inl (Library "the file is in use"),
     LockingDisk {[ "C:/docs/pets.docx" := [inr "The cat"; inl "page damaged"];
                    "C:/docs/pets_temp.pdf" := [inr "The cat"; inl "page damaged"] ]}
                 {[ "C:/docs/pets_temp.pdf" ]})
  ∧ extract_from_docx (read_document locking_pages) locking_convert locking_exists
      locking_remove Windows true "C:/docs/pets.docx" "words" damaged_disk
    = (inl (Library "page damaged"), damaged_disk).
Proof. split; vm_compute; reflexivity. Qed.

Lemma demo_remove_spec p d0 :
  demo_exists p d0 = true ->
  ∃ d1, demo_remove p d0 = (None, d1) ∧ demo_exists p d1 = false.
Proof.
  intros _. exists (delete p d0). split; [done|].
  unfold demo_exists. apply bool_decide_eq_false_2.
  rewrite lookup_delete_eq. by intros [? ?].
Qed.

Lemma extract_from_docx_cleans_up_witness :
  demo_exists "/docs/pets_temp.pdf"
    (snd (extract_from_docx demo_open demo_convert demo_exists demo_remove Posix true
            "/docs/pets.docx" "words" demo_disk)) = false
  ∧ fst (extract_from_docx demo_open demo_convert demo_exists demo_remove Posix true
           "/docs/pets.docx" "words" demo_disk)
    = match demo_convert "/docs/pets.docx" "/docs/pets_temp.pdf" demo_disk with
      | (Some e, _) => inl (Library e)
      | (None, d') => extract_from_pdf_path demo_open true "/docs/pets_temp.pdf" "words" d'
      end.
Proof.
  exact (proj2 (extract_from_docx_cleans_up demo_open demo_convert demo_exists
                  demo_remove Posix true "/docs/pets.docx" "words" demo_disk
                  demo_remove_spec) eq_refl).
Defined.

Example extract_from_docx_demo :
  extract_from_docx demo_open demo_convert demo_exists demo_remove Posix true
    "/docs/pets.docx" "words" demo_disk
  = (inr {[ "cat" := {[ 1%Z; 2%Z ]}; "dog" := {[ 2%Z ]} ]},
     {[ "/docs/pets.docx" := ["The cat"; "A Cat and a dog"] ]}).
Proof. vm_compute. reflexivity. Qed.

Lemma backend_task_dispatch_witness :
  _run_backend_task demo_open demo_convert demo_exists demo_remove Posix true
    ("/docs/" +:+ "pets" +:+ "." +:+ "txt") "words" demo_disk
  = (inl (ValueError ("." +:+ "txt")), demo_disk).
Proof.
  apply (backend_task_dispatch demo_open demo_convert demo_exists demo_remove Posix
           true "/docs/" "pets" "txt" "words" demo_disk);
    try reflexivity; discriminate.
Defined.

(** ** Stop words *)

Lemma term_char_no_apostrophe c :
  term_char c = true -> negb (Ascii.eqb c "'"%char) = true.
Proof. by_cases_on_char c. Qed.

Lemma filter_ext_elem {A} (P Q : A -> Prop) `{∀ x, Decision (P x)}
  `{∀ x, Decision (Q x)} (l : list A) :
  (∀ x, x ∈ l -> P x ↔ Q x) -> filter P l = filter Q l.
Proof.
  induction l as [|x l IH]; intros Hl; [done|].
  rewrite !filter_cons. rewrite IH by (intros y Hy; apply Hl; by right).
  pose proof (Hl x (list_elem_of_here _ _)) as Hx.
  destruct (decide (P x)), (decide (Q x)); tauto.
Qed.

(** X18. No term holds an apostrophe, so the stop words written with an
    apostrophe never remove a term: the words mode keeps exactly the terms
    that are none of the stop words written without apostrophe. *)
Theorem apostrophe_stop_words_unused text :
  _extract_terms text "words"
  = filter (λ word, word ∉ PLAIN_STOP_WORDS) (_extract_terms text "words_no_filter").
Proof.
  rewrite extract_words, extract_words_no_filter. apply filter_ext_elem.
  intros term Hterm%normalized_words_chars. unfold PLAIN_STOP_WORDS.
  rewrite elem_of_filter.
  assert (str_all (λ c, negb (Ascii.eqb c "'"%char)) term = true) as Hno.
  { revert Hterm. apply str_all_impl, term_char_no_apostrophe. }
  tauto.
Qed.

Example stop_words_sizes : size STOP_WORDS = 174 ∧ size PLAIN_STOP_WORDS = 124.
Proof. split; vm_compute; reflexivity. Qed.

Example contraction_terms : _extract_terms "They aren't here" "words" = ["aren"; "t"].
Proof. vm_compute. reflexivity. Qed.
